(** * Harvard Q first-name resolver: a shallow embedding of
    [codex_qguide_gender.py] (class [HarvardQResolver]) and the properties
    of its fetcher, candidate selector, name matcher and cache.

    Python strings are sequences of Unicode code points: a string is a
    [list N].  The character tables of the Python runtime ([str.isspace],
    [str.upper], the regex classes) are an interface, [Unicode]; the
    instance [ascii_tables] agrees with CPython on the code points below
    128 and is the one used to evaluate the functions on concrete text.

    Durations are exact rationals: the only arithmetic the fetcher does on
    them is a multiplication by a power of two and a minimum, both exact on
    binary floating point.  The range of the floats is left out: with a
    float delay, [2 ** (attempt - 1)] no longer converts to a float from
    attempt 1025 on.

    The HTML parser and the remote service are parameters of the
    resolver: a function from the page source to what the program reads
    off the parsed page, and a function that answers the requests of a
    run. *)

From Stdlib Require Import Strings.String Strings.Ascii.
From Stdlib Require Import NArith ZArith QArith Qminmax Lia Lqa Bool List.
From stdpp Require Import base option list gmap.
Import ListNotations.

#[local] Set Warnings "-abstract-large-number".
Local Open Scope N_scope.

(* ===================================================================== *)
(** ** Strings *)
(* ===================================================================== *)

Abbreviation str := (list N).

(** The code points of an ASCII literal. *)
Definition cp (s : string) : str :=
  map N_of_ascii (list_ascii_of_string s).
Arguments cp s%_string.

(** Python truthiness of a string ([if text:]) and of an optional string
    ([if first:], where [None] and the empty string are both false). *)
Definition truthy (s : str) : bool :=
  match s with
  | [] => false
  | _ :: _ => true
  end.

Definition truthy_opt (o : option str) : bool :=
  match o with
  | Some s => truthy s
  | None => false
  end.

Definition str_eqb (a b : str) : bool := bool_decide (a = b).

Fixpoint startswith (prefix s : str) : bool :=
  match prefix, s with
  | [], _ => true
  | _ :: _, [] => false
  | p :: prefix', c :: s' => (p =? c) && startswith prefix' s'
  end.

(** [needle in hay] on strings: substring test. *)
Fixpoint str_in (needle hay : str) : bool :=
  startswith needle hay ||
  match hay with
  | [] => false
  | _ :: hay' => str_in needle hay'
  end.

(** [sep.join(parts)]. *)
Fixpoint join (sep : str) (parts : list str) : str :=
  match parts with
  | [] => []
  | [p] => p
  | p :: rest => p ++ sep ++ join sep rest
  end.

(** [text.replace(".", "")]: every occurrence of one character removed. *)
Fixpoint remove_char (c : N) (s : str) : str :=
  match s with
  | [] => []
  | d :: tl => if d =? c then remove_char c tl else d :: remove_char c tl
  end.

(* ===================================================================== *)
(** ** The character tables of the runtime *)
(* ===================================================================== *)

(** What the program asks of the Unicode character database, through
    [str] methods and through the classes of the [re] module.  [upper] and
    [lower] return strings because a case mapping can change the length.
    The three laws are facts of the database that the proofs about the
    name matcher rely on. *)
Class Unicode := {
  isspace : N -> bool;          (* str.isspace, and the class \s *)
  isalnum : N -> bool;          (* str.isalnum; \w is isalnum or "_" *)
  isdecimal : N -> bool;        (* the class \d *)
  isdigit : N -> bool;          (* str.isdigit *)
  isupper : N -> bool;          (* str.isupper on a one-character string *)
  upper : N -> str;             (* str.upper on a one-character string *)
  lower : N -> str;             (* str.lower on a one-character string *)
  ci_eq : N -> N -> bool;       (* a literal under re.IGNORECASE *)
  alnum_not_space : forall c, isalnum c = true -> isspace c = false;
  period_not_alnum : isalnum 46 = false;
  upper_plain : forall c d, In d (upper c) ->
    (d = 46 -> c = 46) /\ (d = 95 -> c = 95) /\
    (isdigit d = true -> isdigit c = true)
}.

Definition between (lo hi c : N) : bool := (lo <=? c) && (c <=? hi).

Definition ascii_isspace (c : N) : bool :=
  between 9 13 c || between 28 32 c.
Definition ascii_isdigit (c : N) : bool := between 48 57 c.
Definition ascii_isupper (c : N) : bool := between 65 90 c.
Definition ascii_islower (c : N) : bool := between 97 122 c.
Definition ascii_isalnum (c : N) : bool :=
  ascii_isdigit c || ascii_isupper c || ascii_islower c.
Definition ascii_upper (c : N) : str :=
  if ascii_islower c then [c - 32] else [c].
Definition ascii_lower (c : N) : str :=
  if ascii_isupper c then [c + 32] else [c].
Definition ascii_ci_eq (c d : N) : bool :=
  str_eqb (ascii_lower c) (ascii_lower d).

(* ===================================================================== *)
(** ** Backtracking regular expressions, as the [re] module runs them *)
(* ===================================================================== *)

(** The constructs the patterns of the program use.  A character class is
    a predicate on code points; [Group] is the one named group, [first];
    [Bound] is [\b], [Eos] is [$] and [NotAhead] a negative lookahead. *)
Inductive regex :=
| Eps
| Chr (f : N -> bool)
| Seq (r1 r2 : regex)
| Alt (r1 r2 : regex)
| Star (r : regex)
| Group (r : regex)
| Bound
| Eos
| NotAhead (r : regex).

(** [r?], [r+] and [r{0,n}], all greedy. *)
Definition Opt (r : regex) : regex := Alt r Eps.
Definition Plus (r : regex) : regex := Seq r (Star r).
Fixpoint UpTo (n : nat) (r : regex) : regex :=
  match n with
  | O => Eps
  | S n' => Opt (Seq r (UpTo n' r))
  end.

(** A position in the subject: the character just before it, if any, and
    what is left to read. *)
Record cursor := Cursor { before : option N; rest : str }.

Definition start_of (text : str) : cursor := Cursor None text.

(** The text read between two positions of one subject. *)
Definition consumed (from to : cursor) : str :=
  take (length (rest from) - length (rest to))%nat (rest from).

(** A finished match: the text of group [first] when the group took part,
    and the position where the match ends. *)
Definition found := (option str * cursor)%type.
Definition cont := cursor -> option str -> option found.

(** Greedy repetition of a matcher [step]: one more round as long as the
    round reads something, then the rest of the pattern; the rounds are
    given up one by one when the rest fails.  A round reads at least one
    character, so the number of characters left bounds the rounds. *)
Fixpoint star_loop (step : cursor -> option str -> cont -> option found)
    (k : cont) (fuel : nat) (cur : cursor) (g : option str) : option found :=
  match fuel with
  | O => k cur g
  | S fuel' =>
      match step cur g (fun cur' g' =>
              if (length (rest cur') <? length (rest cur))%nat
              then star_loop step k fuel' cur' g'
              else None) with
      | Some res => Some res
      | None => k cur g
      end
  end.

Section Regex.
Context `{Unicode}.

(** The class [\w]. *)
Definition is_word (c : N) : bool := isalnum c || (c =? 95).

Definition word_at (o : option N) : bool :=
  match o with
  | Some c => is_word c
  | None => false
  end.

(** [\b]: exactly one side of the position is a word character. *)
Definition at_boundary (cur : cursor) : bool :=
  xorb (word_at (before cur)) (word_at (head (rest cur))).

(** [$] without MULTILINE: the end, or just before a final newline. *)
Definition at_end (cur : cursor) : bool :=
  match rest cur with
  | [] => true
  | [c] => c =? 10
  | _ => false
  end.

(** The matcher, in continuation-passing style: [k] is the rest of the
    pattern, and [None] makes the caller try its next alternative. *)
Fixpoint rmatch (r : regex) (cur : cursor) (g : option str) (k : cont)
    : option found :=
  match r with
  | Eps => k cur g
  | Chr f =>
      match rest cur with
      | c :: tl => if f c then k (Cursor (Some c) tl) g else None
      | [] => None
      end
  | Seq r1 r2 => rmatch r1 cur g (fun cur' g' => rmatch r2 cur' g' k)
  | Alt r1 r2 =>
      match rmatch r1 cur g k with
      | Some res => Some res
      | None => rmatch r2 cur g k
      end
  | Star r1 => star_loop (rmatch r1) k (length (rest cur)) cur g
  | Group r1 =>
      rmatch r1 cur g (fun cur' _ => k cur' (Some (consumed cur cur')))
  | Bound => if at_boundary cur then k cur g else None
  | Eos => if at_end cur then k cur g else None
  | NotAhead r1 =>
      match rmatch r1 cur g (fun cur' g' => Some (g', cur')) with
      | Some _ => None
      | None => k cur g
      end
  end.

(** One attempt at one position. *)
Definition match_at (r : regex) (cur : cursor) : option found :=
  rmatch r cur None (fun cur' g' => Some (g', cur')).

(** [pattern.finditer(text)]: the matches from left to right, none
    overlapping another.  [skip] counts the characters of the previous
    match still to step over; a match that read nothing moves on by one
    character.  The list holds group [first] of each match. *)
Fixpoint finditer_from (r : regex) (prev : option N) (text : str)
    (skip : nat) : list (option str) :=
  match skip with
  | S skip' =>
      match text with
      | [] => []
      | c :: tl => finditer_from r (Some c) tl skip'
      end
  | O =>
      match match_at r (Cursor prev text) with
      | Some (g, stop) =>
          g :: match text with
               | [] => []
               | c :: tl =>
                   finditer_from r (Some c) tl
                     (length text - length (rest stop) - 1)
               end
      | None =>
          match text with
          | [] => []
          | c :: tl => finditer_from r (Some c) tl 0
          end
      end
  end.

Definition finditer (r : regex) (text : str) : list (option str) :=
  finditer_from r None text 0.

(** [pattern.search(text)] as a truth value. *)
Fixpoint search_from (r : regex) (prev : option N) (text : str) : bool :=
  match match_at r (Cursor prev text) with
  | Some _ => true
  | None =>
      match text with
      | [] => false
      | c :: tl => search_from r (Some c) tl
      end
  end.

Definition search (r : regex) (text : str) : bool :=
  search_from r None text.

(** [re.sub(pattern, "", text)]: the text outside the matches. *)
Fixpoint sub_empty_from (r : regex) (prev : option N) (text : str)
    (skip : nat) : str :=
  match skip with
  | S skip' =>
      match text with
      | [] => []
      | c :: tl => sub_empty_from r (Some c) tl skip'
      end
  | O =>
      match match_at r (Cursor prev text) with
      | Some (_, stop) =>
          match (length text - length (rest stop))%nat, text with
          | O, c :: tl => c :: sub_empty_from r (Some c) tl 0
          | S n, c :: tl => sub_empty_from r (Some c) tl n
          | _, [] => []
          end
      | None =>
          match text with
          | [] => []
          | c :: tl => c :: sub_empty_from r (Some c) tl 0
          end
      end
  end.

Definition sub_empty (r : regex) (text : str) : str :=
  sub_empty_from r None text 0.

(** A literal, and a literal under [(?i:...)]. *)
Definition Lit (s : str) : regex :=
  fold_right (fun c r => Seq (Chr (N.eqb c)) r) Eps s.
Definition LitI (s : str) : regex :=
  fold_right (fun c r => Seq (Chr (ci_eq c)) r) Eps s.

Definition Space : regex := Chr isspace.
End Regex.

(* ===================================================================== *)
(** ** Results and exceptions *)
(* ===================================================================== *)

(** A call returns a value or raises.  The one exception the modelled code
    can raise by itself is the [IndexError] of [candidate[0]] on an empty
    string. *)
Inductive exn := IndexError.

Inductive outcome (A : Type) :=
| Ret (a : A)
| Raise (e : exn).
Arguments Ret {A} a.
Arguments Raise {A} e.

(* ===================================================================== *)
(** ** Token validator and name matcher *)
(* ===================================================================== *)

Section NameMatcher.
Context `{Unicode}.

(** [s.lower()], character by character (the one rule of [str.lower]
    that looks at the neighbours of a character, for the Greek final
    sigma, is left out). *)
Definition lower_str (s : str) : str := flat_map lower s.

(** [s.strip()]. *)
Fixpoint lstrip (s : str) : str :=
  match s with
  | c :: tl => if isspace c then lstrip tl else s
  | [] => []
  end.
Definition rstrip (s : str) : str := rev (lstrip (rev s)).
Definition strip (s : str) : str := rstrip (lstrip s).

(** [LETTER_CLASS], the class [[^\W\d_]]. *)
Definition LETTER_CLASS (c : N) : bool :=
  is_word c && negb (isdecimal c) && negb (c =? 95).

(** The class of the joiners of a token: apostrophe, right single
    quotation mark (U+2019) and hyphen. *)
Definition joiner (c : N) : bool := (c =? 39) || (c =? 8217) || (c =? 45).

Definition KEYWORD_PATTERNS : list regex :=
  [ LitI (cp "Instructor");
    LitI (cp "Instructors");
    Seq (LitI (cp "Course")) (Seq (Star Space) (LitI (cp "Head")));
    Seq (LitI (cp "Primary")) (Seq (Plus Space) (LitI (cp "Instructor")));
    LitI (cp "Lecturer") ].

Definition STRUCTURED_HINTS : list str :=
  [ cp "feedback"; cp "instructor"; cp "course head";
    cp "primary instructor"; cp "lecturer" ].

Definition INVALID_FIRST_TOKENS : list str :=
  [ cp "professor"; cp "prof"; cp "doctor"; cp "dr"; cp "mr"; cp "mrs";
    cp "ms"; cp "mx"; cp "coach"; cp "dean"; cp "chair"; cp "director";
    cp "instructor" ].

(** The pattern of [_normalize_last_name]: a parenthetical at the end,
    with the whitespace around it. *)
Definition trailing_parenthetical : regex :=
  Seq (Star Space)
    (Seq (Chr (N.eqb 40))
      (Seq (Star (Chr (fun c => negb (c =? 41))))
        (Seq (Chr (N.eqb 41)) (Seq (Star Space) Eos)))).

Definition _normalize_last_name (last_name : str) : str :=
  let cleaned := sub_empty trailing_parenthetical last_name in
  strip cleaned.

(** [_token_pattern]: a letter, then letters or a joiner followed by a
    letter. *)
Definition _token_pattern : regex :=
  Seq (Chr LETTER_CLASS)
    (Star (Alt (Chr LETTER_CLASS) (Seq (Chr joiner) (Chr LETTER_CLASS)))).

Definition period : regex := Chr (N.eqb 46).

Definition _build_name_pattern (last_name : str) : regex :=
  let escaped_last := LitI (strip last_name) in
  let token := _token_pattern in
  let first := Seq (Group token) (Opt period) in
  let middle := UpTo 3 (Seq token (Seq (Opt period) (Plus Space))) in
  Seq Bound
    (Seq first
      (Seq (Plus Space)
        (Seq middle (Seq escaped_last (NotAhead (Chr LETTER_CLASS)))))).

Definition _clean_candidate (candidate : str) : outcome (option str) :=
  let candidate := strip candidate in
  if negb (truthy candidate) then Ret None
  else
    let candidate := remove_char 46 candidate in
    if existsb (fun char => isdigit char || (char =? 95)) candidate
    then Ret None
    else
      match candidate with
      | [] => Raise IndexError
      | [c] => Ret (Some (upper c))
      | c :: tl => Ret (Some (upper c ++ tl))
      end.

(** [cleaned[:1].isupper()]. *)
Definition leading_isupper (cleaned : str) : bool :=
  match take 1 cleaned with
  | [c] => isupper c
  | _ => false
  end.

(** The loop of [_extract_from_pattern] over the matches. *)
Fixpoint first_accepted (candidates : list (option str))
    (require_capitalized : bool) : outcome (option str) :=
  match candidates with
  | [] => Ret None
  | g :: later =>
      match g with
      | None => first_accepted later require_capitalized
      | Some candidate =>
          if negb (truthy candidate)
          then first_accepted later require_capitalized
          else
            match _clean_candidate candidate with
            | Raise e => Raise e
            | Ret None => first_accepted later require_capitalized
            | Ret (Some cleaned) =>
                if negb (truthy cleaned)
                then first_accepted later require_capitalized
                else if require_capitalized && negb (leading_isupper cleaned)
                then first_accepted later require_capitalized
                else if bool_decide (lower_str cleaned ∈ INVALID_FIRST_TOKENS)
                then first_accepted later require_capitalized
                else Ret (Some cleaned)
            end
      end
  end.

Definition _extract_from_pattern (pattern : regex) (text : str)
    (require_capitalized : bool) : outcome (option str) :=
  first_accepted (finditer pattern text) require_capitalized.

Definition _find_name_in_text (text last_name : str)
    : outcome (option str) :=
  if negb (truthy text) || negb (truthy last_name) then Ret None
  else
    let text_lower := lower_str text in
    let normalized_last := _normalize_last_name last_name in
    if negb (truthy normalized_last) then Ret None
    else if negb (str_in (lower_str normalized_last) text_lower)
    then Ret None
    else
      let pattern := _build_name_pattern normalized_last in
      match _extract_from_pattern pattern text true with
      | Raise e => Raise e
      | Ret first =>
          if truthy_opt first then Ret first
          else if existsb (fun hint => str_in hint text_lower)
                    STRUCTURED_HINTS
          then
            let relaxed_pattern := _build_name_pattern normalized_last in
            _extract_from_pattern relaxed_pattern text false
          else Ret None
      end.
End NameMatcher.

(* ===================================================================== *)
(** ** The resolver, its world and its effects *)
(* ===================================================================== *)

(** What [session.get] gives back: a response with its status code and
    body, or a [requests.RequestException] (timeout, connection error). *)
Inductive response :=
| RequestException
| Response (status_code : Z) (text : str).

(** The two places that call [time.sleep]: the pause of [self.delay] after
    a response in [_fetch], and the wait of [_sleep_backoff]. *)
Inductive pause := Pacing | Backoff.

Inductive log_record :=
| WarnRequestFailed (attempt max_retries : nat)
| WarnHttpStatus (status_code : Z) (url : str) (attempt max_retries : nat)
| ErrorAuthenticationFailed (url : str)
| ErrorLoginPage (url : str)
| DebugNoCookie (url : str)
| DebugResolved (url first last_name : str)
| DebugUnableToParse (url : str).

(** What a run does that can be observed from outside. *)
Inductive event :=
| EvGet (url : str)
| EvSleep (why : pause) (seconds : Q)
| EvLog (record : log_record).

(** The fields of a [HarvardQResolver] that never change. *)
Record resolver := Resolver {
  cookie_header : str;
  delay : Q;
  max_retries : nat
}.

(** [__init__]: no cookie becomes the empty string, a negative delay
    becomes zero and there is at least one attempt. *)
Definition new_resolver (cookie : option str) (delay : Q) (max_retries : Z)
    : resolver :=
  {| cookie_header := default [] cookie;
     delay := if Qle_bool 0 delay then delay else 0%Q;
     max_retries := Z.to_nat (Z.max 1 max_retries) |}.

(** The mutable part: [_link_cache], and with it the number of requests
    sent so far and the events so far, oldest first. *)
Record world := World {
  link_cache : gmap str (option str);
  requests : nat;
  trace : list event
}.

Definition fresh_world : world := World ∅ 0 [].

(** Computations that read and change the world and may raise. *)
Definition M (A : Type) : Type := world -> outcome A * world.

Definition ret {A} (a : A) : M A := fun w => (Ret a, w).

Definition bind {A B} (m : M A) (f : A -> M B) : M B :=
  fun w =>
    match m w with
    | (Ret a, w') => f a w'
    | (Raise e, w') => (Raise e, w')
    end.

Notation "x <~ m ;; k" := (bind m (fun x => k))
  (at level 100, m at next level, right associativity).
Notation "m ;;; k" := (bind m (fun _ => k))
  (at level 100, right associativity).

Definition lift {A} (o : outcome A) : M A := fun w => (o, w).

Definition emit (e : event) : M unit :=
  fun w => (Ret tt, World (link_cache w) (requests w) (trace w ++ [e])).

Definition logging (record : log_record) : M unit := emit (EvLog record).

Definition sleep (why : pause) (seconds : Q) : M unit :=
  emit (EvSleep why seconds).

Definition cache_get (url : str) : M (option (option str)) :=
  fun w => (Ret (link_cache w !! url), w).

Definition cache_set (url : str) (value : option str) : M unit :=
  fun w => (Ret tt, World (<[url := value]> (link_cache w)) (requests w)
                      (trace w)).

Definition Qpositive (q : Q) : bool := negb (Qle_bool q 0).
Definition Qnonzero (q : Q) : bool := negb (Qeq_bool q 0).

(** [min(self.delay * (2 ** (attempt - 1)), 10)]. *)
Definition backoff_wait (delay : Q) (attempt : nat) : Q :=
  Qmin (delay * inject_Z (2 ^ (Z.of_nat attempt - 1))) 10.

Section Fetcher.
(** The remote service: the answer to the [k]-th request of the run. *)
Context (net : str -> nat -> response).
Context (self : resolver).

(** [session.get(url, ...)]. *)
Definition session_get (url : str) : M response :=
  fun w => (Ret (net url (requests w)),
            World (link_cache w) (S (requests w)) (trace w ++ [EvGet url])).

Definition _sleep_backoff (attempt : nat) : M unit :=
  let wait := backoff_wait (delay self) attempt in
  if Qpositive wait then sleep Backoff wait else ret tt.

(** The body of the loop of [_fetch], over the attempts still to make. *)
Fixpoint fetch_loop (url : str) (attempts : list nat) : M (option str) :=
  match attempts with
  | [] => ret None
  | attempt :: later =>
      response <~ session_get url ;;
      match response with
      | RequestException =>
          logging (WarnRequestFailed attempt (max_retries self)) ;;;
          _sleep_backoff attempt ;;;
          fetch_loop url later
      | Response status_code text =>
          (if Qnonzero (delay self) then sleep Pacing (delay self)
           else ret tt) ;;;
          if negb (status_code =? 200)%Z then
            logging (WarnHttpStatus status_code url attempt
                       (max_retries self)) ;;;
            if ((status_code =? 401) || (status_code =? 403))%Z then
              logging (ErrorAuthenticationFailed url) ;;;
              ret None
            else
              _sleep_backoff attempt ;;;
              fetch_loop url later
          else if str_in (cp "HarvardKey - Sign In") text
                  || str_in (cp "login-form") text then
            logging (ErrorLoginPage url) ;;;
            ret None
          else ret (Some text)
      end
  end.

(** [range(1, self.max_retries + 1)] is [seq 1 max_retries]. *)
Definition _fetch (url : str) : M (option str) :=
  fetch_loop url (seq 1 (max_retries self)).
End Fetcher.

(* ===================================================================== *)
(** ** Candidate selector and resolution *)
(* ===================================================================== *)

(** What the program reads off a parsed document.  [select] gives, for a
    CSS selector, [get_text(" ", strip=True)] of each selected element in
    document order; [strings] are the text nodes in document order, each
    with [get_text(" ", strip=True)] of its parent when it has one;
    [stripped_strings] is the generator of that name. *)
Record text_node := TextNode {
  node_string : str;
  parent_text : option str
}.

Record soup := Soup {
  select : str -> list str;
  strings : list text_node;
  stripped_strings : list str
}.

(** The [if text and text not in seen: seen.add(text); yield text] of the
    two loops of [_candidate_text_chunks], over the texts they visit. *)
Fixpoint yield_unseen (texts : list str) (seen : gset str)
    : list str * gset str :=
  match texts with
  | [] => ([], seen)
  | text :: later =>
      if truthy text && bool_decide (text ∉ seen) then
        let '(yielded, seen') := yield_unseen later ({[text]} ∪ seen) in
        (text :: yielded, seen')
      else yield_unseen later seen
  end.

Definition _first_n_characters (text : str) (limit : nat) : str :=
  if (length text <=? limit)%nat then text else take limit text.

Section Resolver.
Context `{Unicode}.
(** The HTML parser, [BeautifulSoup(html, "html.parser")]. *)
Context (BeautifulSoup : str -> soup).
Context (net : str -> nat -> response).
Context (self : resolver).

(** [soup.find_all(string=pattern)]: the text nodes the pattern is found
    in. *)
Definition find_all_string (doc : soup) (pattern : regex)
    : list text_node :=
  List.filter (fun node => search pattern (node_string node)) (strings doc).

Definition _string_with_parent (node : text_node) : str :=
  match parent_text node with
  | Some text => text
  | None => strip (node_string node)
  end.

(** The texts the first loop visits, then those the second visits. *)
Definition heading_texts (doc : soup) : list str :=
  flat_map (select doc) [cp "title"; cp "h1"; cp "h2"; cp "h3"].

Definition keyword_texts (doc : soup) : list str :=
  flat_map (fun pattern =>
              map _string_with_parent (find_all_string doc pattern))
    KEYWORD_PATTERNS.

(** The chunks the generator [_candidate_text_chunks] yields, in order. *)
Definition _candidate_text_chunks (doc : soup) : list str :=
  let '(headings, seen) := yield_unseen (heading_texts doc) ∅ in
  let '(hits, _) := yield_unseen (keyword_texts doc) seen in
  headings ++ hits.

(** The loop of [_extract_first_name]: [Ret None] when it runs out. *)
Fixpoint first_in_chunks (chunks : list str) (last_name : str)
    : outcome (option str) :=
  match chunks with
  | [] => Ret None
  | chunk :: later =>
      match _find_name_in_text chunk last_name with
      | Raise e => Raise e
      | Ret first =>
          if truthy_opt first then Ret first
          else first_in_chunks later last_name
      end
  end.

Definition fallback_text (doc : soup) : str :=
  _first_n_characters (join (cp " ") (stripped_strings doc)) 6000.

Definition _extract_first_name (html last_name : str)
    : outcome (option str) :=
  if negb (truthy last_name) then Ret None
  else
    let doc := BeautifulSoup html in
    let candidates := _candidate_text_chunks doc in
    match first_in_chunks candidates last_name with
    | Raise e => Raise e
    | Ret (Some first) => Ret (Some first)
    | Ret None => _find_name_in_text (fallback_text doc) last_name
    end.

Definition resolve (url last_name : str) : M (option str) :=
  let url := strip url in
  if negb (truthy url) then ret None
  else
    cached <~ cache_get url ;;
    match cached with
    | Some value => ret value
    | None =>
        if negb (truthy (cookie_header self)) then
          logging (DebugNoCookie url) ;;;
          cache_set url None ;;;
          ret None
        else
          html <~ _fetch net self url ;;
          if negb (truthy_opt html) then
            cache_set url None ;;;
            ret None
          else
            first <~ lift (_extract_first_name (default [] html)
                             last_name) ;;
            (if truthy_opt first
             then logging (DebugResolved url (default [] first) last_name)
             else logging (DebugUnableToParse url)) ;;;
            cache_set url first ;;;
            ret first
    end.
End Resolver.

(* ===================================================================== *)
(** ** Gender label and the rows of the table *)
(* ===================================================================== *)

(** [guess_sex].  The detector is [None] when the library is missing or
    could not be set up; otherwise it is the function [get_gender] of the
    detector object (an object is always true). *)
Definition guess_sex (first_name : str) (detector : option (str -> str))
    : str :=
  if negb (truthy first_name) then []
  else
    match detector with
    | None => []
    | Some get_gender =>
        let gender := get_gender first_name in
        if bool_decide (gender ∈ [cp "male"; cp "mostly_male"])
        then cp "male"
        else if bool_decide (gender ∈ [cp "female"; cp "mostly_female"])
        then cp "female"
        else cp "unknown"
    end.

(** A row of [csv.DictReader]: a dict from column names to values, where a
    value is [None] when the line is shorter than the header.  The fields a
    line has beyond the header, which the reader keeps as a list under the
    key [None], are not part of the model: the loop never reads or writes
    that key. *)
Abbreviation row := (gmap str (option str)).

Definition new_column : str := cp "course_teacher_first_name".
Definition sex_column : str := cp "course_teacher_sex".

(** [(row.get(key) or "")]. *)
Definition get_or_empty (r : row) (key : str) : str :=
  match r !! key with
  | Some (Some value) => value
  | _ => []
  end.

(** [if column not in fieldnames: fieldnames.append(column)]. *)
Definition add_column (fieldnames : list str) (column : str) : list str :=
  if bool_decide (column ∈ fieldnames) then fieldnames
  else fieldnames ++ [column].

(** The records [process_rows] logs. *)
Inductive row_log_record :=
| WarnLacksTeacher (idx : nat)
| InfoProcessed (idx : nat) (first_name last_name : str).

(** The state of a batch: the world of its resolver, and the records
    [process_rows] has logged, each with the number of events of the
    resolver that came before it. *)
Record batch := Batch {
  resolver_world : world;
  row_log : list (nat * row_log_record)
}.

Definition log_row (record : row_log_record) (b : batch) : batch :=
  Batch (resolver_world b)
    (row_log b ++ [(length (trace (resolver_world b)), record)]).

(** [limit is not None and idx > limit]. *)
Definition beyond_limit (limit : option Z) (idx : nat) : bool :=
  match limit with
  | Some l => (l <? Z.of_nat idx)%Z
  | None => false
  end.

Section ProcessRows.
Context `{Unicode}.
Context (BeautifulSoup : str -> soup).
Context (net : str -> nat -> response).
Context (resolver0 : resolver).
Context (gender_detector : option (str -> str)).
Context (reuse_existing_first_names : bool).
Context (limit : option Z).

(** The body of the loop of [process_rows], for the row numbered [idx]:
    the row as it is left, and the state after it. *)
Definition process_row (idx : nat) (r : row) (b : batch)
    : outcome row * batch :=
  if beyond_limit limit idx then
    (Ret (<[new_column := default (Some []) (r !! new_column)]> r), b)
  else
    let last_name := strip (get_or_empty r (cp "course_teacher")) in
    let link := strip (get_or_empty r (cp "link")) in
    if negb (truthy last_name) then (Ret r, log_row (WarnLacksTeacher idx) b)
    else
      let first_name := strip (get_or_empty r new_column) in
      let '(resolved, b) :=
        if negb (truthy first_name) || negb reuse_existing_first_names then
          match resolve BeautifulSoup net resolver0 link last_name
                  (resolver_world b) with
          | (Ret value, w) => (Ret (default [] value), Batch w (row_log b))
          | (Raise e, w) => (Raise e, Batch w (row_log b))
          end
        else (Ret first_name, b) in
      match resolved with
      | Raise e => (Raise e, b)
      | Ret first_name =>
          let r := <[new_column := Some first_name]> r in
          let existing_sex := strip (get_or_empty r sex_column) in
          let r :=
            if truthy existing_sex
            then <[sex_column := Some existing_sex]> r
            else <[sex_column := Some (guess_sex first_name gender_detector)]>
                   r in
          let b :=
            if (idx mod 25 =? 0)%nat
            then log_row (InfoProcessed idx
                            (if truthy first_name then first_name
                             else cp "?")
                            last_name) b
            else b in
          (Ret r, b)
      end.

(** [for idx, row in enumerate(rows, start=idx)]. *)
Fixpoint process_loop (idx : nat) (rows : list row) (b : batch)
    : outcome (list row) * batch :=
  match rows with
  | [] => (Ret [], b)
  | r :: later =>
      match process_row idx r b with
      | (Ret r', b') =>
          match process_loop (S idx) later b' with
          | (Ret later', b'') => (Ret (r' :: later'), b'')
          | (Raise e, b'') => (Raise e, b'')
          end
      | (Raise e, b') => (Raise e, b')
      end
  end.

(** [process_rows], between reading the table and writing it: from the
    header ([reader.fieldnames], [None] for an empty file) and the rows
    read, the header and the rows written, and the number returned. *)
Definition process_rows (fieldnames : option (list str)) (rows : list row)
    (b : batch) : outcome (list str * list row * nat) * batch :=
  let fieldnames := default [] fieldnames in
  let fieldnames := add_column fieldnames new_column in
  let fieldnames := add_column fieldnames sex_column in
  match process_loop 1 rows b with
  | (Ret rows', b') => (Ret (fieldnames, rows', length rows'), b')
  | (Raise e, b') => (Raise e, b')
  end.
End ProcessRows.

(* ===================================================================== *)
(** * Properties *)
(* ===================================================================== *)

(** ** The ASCII tables satisfy the laws of the interface *)

Lemma ascii_alnum_not_space c :
  ascii_isalnum c = true -> ascii_isspace c = false.
Proof.
  unfold ascii_isalnum, ascii_isspace, ascii_isdigit, ascii_isupper,
    ascii_islower, between.
  intros H. apply orb_true_iff in H as [H | H];
    [apply orb_true_iff in H as [H | H] |];
    apply andb_true_iff in H as [H1 H2];
    apply N.leb_le in H1; apply N.leb_le in H2;
    apply orb_false_iff; split; apply andb_false_iff;
    first [left; apply N.leb_gt; lia | right; apply N.leb_gt; lia].
Qed.

Lemma ascii_upper_plain c d :
  In d (ascii_upper c) ->
  (d = 46 -> c = 46) /\ (d = 95 -> c = 95) /\
  (ascii_isdigit d = true -> ascii_isdigit c = true).
Proof.
  unfold ascii_upper, ascii_islower, ascii_isdigit, between.
  destruct (97 <=? c) eqn:Hlo; destruct (c <=? 122) eqn:Hhi; simpl;
    intros [<- | []]; try (repeat split; intros; assumption).
  apply N.leb_le in Hlo. apply N.leb_le in Hhi.
  repeat split; intros H; try lia.
  apply andb_true_iff in H as [H1 H2].
  apply N.leb_le in H1. apply N.leb_le in H2. lia.
Qed.

(** The tables restricted to ASCII.  Code points from 128 on are taken as
    caseless symbols that are neither letters, digits nor whitespace. *)
#[global] Instance ascii_tables : Unicode := {|
  isspace := ascii_isspace;
  isalnum := ascii_isalnum;
  isdecimal := ascii_isdigit;
  isdigit := ascii_isdigit;
  isupper := ascii_isupper;
  upper := ascii_upper;
  lower := ascii_lower;
  ci_eq := ascii_ci_eq;
  alnum_not_space := ascii_alnum_not_space;
  period_not_alnum := eq_refl;
  upper_plain := ascii_upper_plain
|}.

Local Close Scope N_scope.

(* ===================================================================== *)
(** ** The fetcher, attempt by attempt *)
(* ===================================================================== *)

(** The world [n] requests and the events [evs] later. *)
Definition advance (w : world) (n : nat) (evs : list event) : world :=
  World (link_cache w) (requests w + n) (trace w ++ evs).

Lemma advance_0 w : advance w 0 [] = w.
Proof.
  destruct w as [c r t]. unfold advance. simpl.
  by rewrite Nat.add_0_r, app_nil_r.
Qed.

Lemma advance_advance w n evs m evs' :
  advance (advance w n evs) m evs' = advance w (n + m) (evs ++ evs').
Proof.
  unfold advance. simpl. by rewrite Nat.add_assoc, app_assoc.
Qed.

Lemma requests_advance w n evs : requests (advance w n evs) = (requests w + n)%nat.
Proof. reflexivity. Qed.

(** The events since the world [w]. *)
Definition events_since (w w' : world) : list event :=
  drop (length (trace w)) (trace w').

Lemma events_since_advance w n evs : events_since w (advance w n evs) = evs.
Proof. unfold events_since, advance. simpl. by rewrite drop_app_length. Qed.

(** The events of a run that follow each request, up to the next one. *)
Fixpoint split_at_gets (evs : list event) : list event * list (list event) :=
  match evs with
  | [] => ([], [])
  | EvGet _ :: later =>
      let '(round, rounds) := split_at_gets later in ([], round :: rounds)
  | e :: later =>
      let '(round, rounds) := split_at_gets later in (e :: round, rounds)
  end.

Definition segments (evs : list event) : list (list event) :=
  (split_at_gets evs).2.

Definition is_get (e : event) : bool :=
  match e with
  | EvGet _ => true
  | _ => false
  end.

(** The sleeps among some events, and those of one call site. *)
Definition sleeps (evs : list event) : list (pause * Q) :=
  omap (fun e => match e with
                 | EvSleep why seconds => Some (why, seconds)
                 | _ => None
                 end) evs.

Definition pacing_sleeps (evs : list event) : list Q :=
  omap (fun e => match e with
                 | EvSleep Pacing seconds => Some seconds
                 | _ => None
                 end) evs.


Lemma split_at_gets_app body later :
  Forall (fun e => is_get e = false) body ->
  split_at_gets (body ++ later) =
  (body ++ (split_at_gets later).1, (split_at_gets later).2).
Proof.
  intros Hbody. induction Hbody as [| e body He _ IH]; simpl.
  - by destruct (split_at_gets later).
  - rewrite IH. destruct e; simpl in *; try discriminate; reflexivity.
Qed.

Section FetcherFacts.
Context (net : str -> nat -> response).
Context (self : resolver).

Definition login_marker (text : str) : bool :=
  str_in (cp "HarvardKey - Sign In") text || str_in (cp "login-form") text.

Definition auth_status (status_code : Z) : bool :=
  ((status_code =? 401) || (status_code =? 403))%Z.

(** A failure after which the loop goes on to the next attempt. *)
Definition retryable (r : response) : bool :=
  match r with
  | RequestException => true
  | Response status_code _ =>
      negb (status_code =? 200)%Z && negb (auth_status status_code)
  end.

Definition pacing_events : list event :=
  if Qnonzero (delay self) then [EvSleep Pacing (delay self)] else [].

Definition backoff_events (attempt : nat) : list event :=
  if Qpositive (backoff_wait (delay self) attempt)
  then [EvSleep Backoff (backoff_wait (delay self) attempt)]
  else [].

(** What one attempt does after its request, by the answer. *)
Definition attempt_events (url : str) (attempt : nat) (r : response)
    : list event :=
  match r with
  | RequestException =>
      EvLog (WarnRequestFailed attempt (max_retries self))
        :: backoff_events attempt
  | Response status_code text =>
      pacing_events ++
      if negb (status_code =? 200)%Z then
        EvLog (WarnHttpStatus status_code url attempt (max_retries self))
          :: (if auth_status status_code
              then [EvLog (ErrorAuthenticationFailed url)]
              else backoff_events attempt)
      else if login_marker text then [EvLog (ErrorLoginPage url)]
      else []
  end.

Definition attempt_result (r : response) : option str :=
  match r with
  | RequestException => None
  | Response status_code text =>
      if (status_code =? 200)%Z && negb (login_marker text)
      then Some text else None
  end.

(** The rounds of a loop whose first request is the [k]-th of the run. *)
Fixpoint rounds (url : str) (attempts : list nat) (k : nat)
    : list (list event) :=
  match attempts with
  | [] => []
  | attempt :: later =>
      attempt_events url attempt (net url k)
        :: (if retryable (net url k) then rounds url later (S k) else [])
  end.

Fixpoint loop_result (url : str) (attempts : list nat) (k : nat)
    : option str :=
  match attempts with
  | [] => None
  | attempt :: later =>
      if retryable (net url k) then loop_result url later (S k)
      else attempt_result (net url k)
  end.

Definition with_gets (url : str) (rs : list (list event)) : list event :=
  concat (map (cons (EvGet url)) rs).

Lemma _sleep_backoff_run attempt w :
  _sleep_backoff self attempt w = (Ret tt, advance w 0 (backoff_events attempt)).
Proof.
  unfold _sleep_backoff, backoff_events.
  destruct (Qpositive _); unfold sleep, emit, ret, advance; simpl.
  - by rewrite Nat.add_0_r.
  - destruct w. simpl. by rewrite Nat.add_0_r, app_nil_r.
Qed.

Lemma pacing_run w :
  (if Qnonzero (delay self) then sleep Pacing (delay self) else ret tt) w
  = (Ret tt, advance w 0 pacing_events).
Proof.
  unfold pacing_events.
  destruct (Qnonzero _); unfold sleep, emit, ret, advance; simpl.
  - by rewrite Nat.add_0_r.
  - destruct w. simpl. by rewrite Nat.add_0_r, app_nil_r.
Qed.

Lemma logging_run record w :
  logging record w = (Ret tt, advance w 0 [EvLog record]).
Proof. unfold logging, emit, advance. simpl. by rewrite Nat.add_0_r. Qed.

Lemma session_get_run url w :
  session_get net url w = (Ret (net url (requests w)), advance w 1 [EvGet url]).
Proof. unfold session_get, advance. simpl. by rewrite Nat.add_1_r. Qed.

(** The loop does what [rounds] and [loop_result] say, and never
    raises. *)
Lemma fetch_loop_run url attempts w :
  fetch_loop net self url attempts w =
  (Ret (loop_result url attempts (requests w)),
   advance w (length (rounds url attempts (requests w)))
     (with_gets url (rounds url attempts (requests w)))).
Proof.
  revert w. induction attempts as [| attempt later IH]; intros w.
  - simpl. unfold ret. by rewrite advance_0.
  - cbn [fetch_loop rounds loop_result].
    unfold bind at 1. rewrite session_get_run.
    destruct (net url (requests w)) as [| status_code text] eqn:Hr.
    + unfold bind. rewrite logging_run, _sleep_backoff_run, IH.
      rewrite !requests_advance, !advance_advance.
      replace (requests w + 1 + 0 + 0)%nat with (S (requests w)) by lia.
      reflexivity.
    + unfold bind at 1. rewrite pacing_run.
      cbn [retryable attempt_events attempt_result].
      destruct (status_code =? 200)%Z eqn:H200; cbn [negb andb].
      * fold (login_marker text).
        destruct (login_marker text); cbn [negb].
        -- unfold bind. rewrite logging_run. unfold ret.
           rewrite !advance_advance. unfold with_gets. cbn [map concat].
           simpl. rewrite ?app_nil_r, <- ?app_assoc. reflexivity.
        -- unfold ret. rewrite !advance_advance. unfold with_gets.
           cbn [map concat]. simpl. rewrite ?app_nil_r, <- ?app_assoc. reflexivity.
      * unfold bind at 1. rewrite logging_run.
        fold (auth_status status_code).
        destruct (auth_status status_code); cbn [negb].
        -- unfold bind. rewrite logging_run. unfold ret.
           rewrite !advance_advance. unfold with_gets. cbn [map concat].
           simpl. rewrite ?app_nil_r, <- ?app_assoc. reflexivity.
        -- unfold bind. rewrite _sleep_backoff_run, IH.
           rewrite !requests_advance, !advance_advance.
           replace (requests w + 1 + 0 + 0 + 0)%nat with (S (requests w))
             by lia.
           unfold with_gets. cbn [map concat length].
           simpl. rewrite ?app_nil_r, <- ?app_assoc. reflexivity.
Qed.

Lemma attempt_events_no_get url attempt r :
  Forall (fun e => is_get e = false) (attempt_events url attempt r).
Proof.
  unfold attempt_events, pacing_events, backoff_events.
  destruct r as [| status_code text].
  - destruct (Qpositive _); repeat constructor.
  - apply Forall_app. split.
    + destruct (Qnonzero (delay self)); repeat constructor.
    + destruct (status_code =? 200)%Z, (auth_status status_code),
        (login_marker text),
        (Qpositive (backoff_wait (delay self) attempt));
        repeat constructor.
Qed.

Lemma rounds_no_get url attempts k :
  Forall (Forall (fun e => is_get e = false)) (rounds url attempts k).
Proof.
  revert k. induction attempts as [| a later IH]; intros k; simpl.
  - constructor.
  - constructor; [apply attempt_events_no_get |].
    destruct (retryable _); [apply IH | constructor].
Qed.

(** Cutting the events of a loop at its requests gives back its
    rounds. *)
Lemma segments_with_gets url rs :
  Forall (Forall (fun e => is_get e = false)) rs ->
  split_at_gets (with_gets url rs) = ([], rs).
Proof.
  induction 1 as [| r rs Hr _ IH]; [reflexivity |].
  unfold with_gets in *. cbn [map concat]. cbn [app split_at_gets].
  rewrite split_at_gets_app by done.
  rewrite IH. simpl. by rewrite app_nil_r.
Qed.

Lemma rounds_lookup url attempts k j seg :
  rounds url attempts k !! j = Some seg ->
  exists attempt,
    attempts !! j = Some attempt /\
    seg = attempt_events url attempt (net url (k + j)) /\
    forall i, (i < j)%nat -> retryable (net url (k + i)) = true.
Proof.
  revert k j. induction attempts as [| a later IH]; intros k j Hj.
  - discriminate.
  - destruct j as [| j]; simpl in Hj.
    + injection Hj as <-. exists a. rewrite Nat.add_0_r.
      repeat split. intros i Hi. lia.
    + destruct (retryable (net url k)) eqn:Hk; [| discriminate].
      apply IH in Hj as (attempt & Hlook & -> & Hbefore).
      exists attempt. replace (k + S j)%nat with (S k + j)%nat by lia.
      repeat split; [done |]. intros [| i] Hi.
      * by rewrite Nat.add_0_r.
      * replace (k + S i)%nat with (S k + i)%nat by lia.
        apply Hbefore. lia.
Qed.


(** An attempt that is not a retryable failure ends the loop. *)
Lemma rounds_stop url attempts k n :
  (n < length attempts)%nat ->
  (forall i, (i < n)%nat -> retryable (net url (k + i)) = true) ->
  retryable (net url (k + n)) = false ->
  length (rounds url attempts k) = S n /\
  loop_result url attempts k = attempt_result (net url (k + n)).
Proof.
  revert k n. induction attempts as [| a later IH]; intros k n Hn Hbefore Hstop.
  - simpl in Hn. lia.
  - destruct n as [| n]; simpl.
    + rewrite Nat.add_0_r in *. by rewrite Hstop.
    + specialize (Hbefore 0%nat ltac:(lia)) as H0.
      rewrite Nat.add_0_r in H0. rewrite H0.
      replace (k + S n)%nat with (S k + n)%nat in * by lia.
      destruct (IH (S k) n) as [Hlen Hres]; [simpl in Hn; lia | | done |].
      * intros i Hi. replace (S k + i)%nat with (k + S i)%nat by lia.
        apply Hbefore. lia.
      * by rewrite Hlen, Hres.
Qed.


(** The result, the number of requests and the rounds of [_fetch]. *)
Lemma _fetch_run url w :
  let attempts := seq 1 (max_retries self) in
  let run := _fetch net self url w in
  run.1 = Ret (loop_result url attempts (requests w)) /\
  requests run.2
    = (requests w + length (rounds url attempts (requests w)))%nat /\
  link_cache run.2 = link_cache w /\
  trace run.2 = trace w ++ events_since w run.2 /\
  events_since w run.2
    = with_gets url (rounds url attempts (requests w)) /\
  segments (events_since w run.2) = rounds url attempts (requests w).
Proof.
  intros attempts run. subst run. unfold _fetch.
  rewrite fetch_loop_run. fold attempts. cbn [fst snd].
  rewrite events_since_advance. unfold segments.
  rewrite segments_with_gets by apply rounds_no_get. done.
Qed.
End FetcherFacts.

(** [needle in hay] holds exactly when [needle] is a substring of [hay]. *)
Lemma startswith_spec prefix s :
  startswith prefix s = true <-> exists b, s = prefix ++ b.
Proof.
  revert s. induction prefix as [| p prefix IH]; intros s; simpl.
  - split; [intros _; by exists s | done].
  - destruct s as [| c s].
    + split; [done | intros [b Hb]; discriminate].
    + rewrite andb_true_iff, N.eqb_eq, IH. split.
      * intros [-> [b ->]]. by exists b.
      * intros [b Hb]. injection Hb as -> ->. split; [done | by exists b].
Qed.

Lemma str_in_spec needle hay :
  str_in needle hay = true <-> exists a b, hay = a ++ needle ++ b.
Proof.
  induction hay as [| c hay IH].
  - simpl. rewrite orb_false_r, startswith_spec. split.
    + intros [b Hb]. by exists [], b.
    + intros (a & b & Hab). destruct a; [by exists b |]. discriminate.
  - cbn [str_in]. rewrite orb_true_iff, startswith_spec, IH. split.
    + intros [[b Hb] | (a & b & ->)].
      * by exists [], b.
      * by exists (c :: a), b.
    + intros (a & b & Hab). destruct a as [| c' a].
      * left. by exists b.
      * injection Hab as -> ->. right. by exists a, b.
Qed.


Lemma sleeps_app evs evs' : sleeps (evs ++ evs') = sleeps evs ++ sleeps evs'.
Proof. unfold sleeps. apply omap_app. Qed.

Lemma pacing_sleeps_app evs evs' :
  pacing_sleeps (evs ++ evs') = pacing_sleeps evs ++ pacing_sleeps evs'.
Proof. unfold pacing_sleeps. apply omap_app. Qed.




(* ===================================================================== *)
(** ** Claims about the fetcher *)
(* ===================================================================== *)









(** C6, as amended.  Every attempt of a fetch that receives an HTTP
    response, whatever its status and also when it is the last attempt
    and fails, is followed at once by one pause of the fixed delay (when
    the delay is not zero) and by no other such pause; an attempt that
    raises a transport error is followed by none.  Every request of the
    fetch has its segment of events. *)
Theorem pacing_after_every_response
    (net : str -> nat -> response) (self : resolver) (url : str) (w : world)
    (j : nat) (seg : list event) :
  let run := _fetch net self url w in
  segments (events_since w run.2) !! j = Some seg ->
  length (segments (events_since w run.2)) = requests run.2 - requests w /\
  match net url (requests w + j) with
  | Response _ _ =>
      if Qnonzero (delay self)
      then exists tail,
             seg = EvSleep Pacing (delay self) :: tail /\
             pacing_sleeps tail = []
      else pacing_sleeps seg = []
  | RequestException => pacing_sleeps seg = []
  end.
Proof.
  intros run Hseg.
  destruct (_fetch_run net self url w) as (_ & Hreq & _ & _ & _ & Hsegs).
  fold run in Hreq, Hsegs. rewrite Hsegs in Hseg |- *.
  split; [rewrite Hreq; lia |].
  apply rounds_lookup in Hseg as (attempt & _ & -> & _).
  destruct (net url (requests w + j)) as [| status_code text];
    cbn [attempt_events]; unfold pacing_events, backoff_events.
  - by destruct (Qpositive _).
  - destruct (Qnonzero (delay self)).
    + eexists. split; [reflexivity |].
      by destruct (status_code =? 200)%Z, (auth_status status_code),
        (login_marker text),
        (Qpositive (backoff_wait (delay self) attempt)).
    + by destruct (status_code =? 200)%Z, (auth_status status_code),
        (login_marker text),
        (Qpositive (backoff_wait (delay self) attempt)).
Qed.

Lemma pacing_after_every_response_witness :
  let net := fun (_ : str) (_ : nat) => Response 403 [] in
  let self := new_resolver (Some (cp "session=1")) (1 # 2) 3 in
  let run := _fetch net self (cp "u") fresh_world in
  length (segments (events_since fresh_world run.2))
    = requests run.2 - requests fresh_world /\
  exists tail,
    [EvSleep Pacing (1 # 2); EvLog (WarnHttpStatus 403 (cp "u") 1 3);
     EvLog (ErrorAuthenticationFailed (cp "u"))]
    = EvSleep Pacing (1 # 2) :: tail /\
    pacing_sleeps tail = [].
Proof.
  apply (pacing_after_every_response
           (fun _ _ => Response 403 [])
           (new_resolver (Some (cp "session=1")) (1 # 2) 3) (cp "u")
           fresh_world 0
           [EvSleep Pacing (1 # 2); EvLog (WarnHttpStatus 403 (cp "u") 1 3);
            EvLog (ErrorAuthenticationFailed (cp "u"))]).
  reflexivity.
Defined.

(** C6 as stated fails: with one attempt allowed and a delay of half a
    second, a fetch answered 500 fails, and the pause of the fixed delay
    follows that last failing attempt. *)
Lemma pacing_follows_last_failed_attempt :
  let self := new_resolver (Some (cp "session=1")) (1 # 2) 1 in
  let run := _fetch (fun _ _ => Response 500 []) self (cp "u") fresh_world in
  run.1 = Ret None /\
  requests run.2 = 1 /\
  exists seg,
    last (segments (events_since fresh_world run.2)) = Some seg /\
    pacing_sleeps seg = [1 # 2] /\
    ~ (pacing_sleeps seg = []).
Proof.
  repeat split. eexists. repeat split. discriminate.
Qed.

(* ===================================================================== *)
(** ** What a successful match has read *)
(* ===================================================================== *)

(** Zero or more rounds of a relation between positions. *)
Inductive iter (R : cursor -> option str -> cursor -> option str -> Prop)
    : cursor -> option str -> cursor -> option str -> Prop :=
| iter_done cur g : iter R cur g cur g
| iter_step cur g cur1 g1 cur2 g2 :
    R cur g cur1 g1 -> iter R cur1 g1 cur2 g2 -> iter R cur g cur2 g2.

Fixpoint group_free (r : regex) : bool :=
  match r with
  | Eps | Chr _ | Bound | Eos | NotAhead _ => true
  | Seq r1 r2 | Alt r1 r2 => group_free r1 && group_free r2
  | Star r1 => group_free r1
  | Group _ => false
  end.

Section MatcherFacts.
Context `{Unicode}.

(** [reach r cur g cur' g']: the pattern [r] can read from [cur] to
    [cur'], turning the group from [g] into [g'].  This forgets the order
    in which the matcher tries the ways to match. *)
Fixpoint reach (r : regex) (cur : cursor) (g : option str)
    (cur' : cursor) (g' : option str) : Prop :=
  match r with
  | Eps => cur' = cur /\ g' = g
  | Chr f =>
      exists c tl,
        rest cur = c :: tl /\ f c = true /\
        cur' = Cursor (Some c) tl /\ g' = g
  | Seq r1 r2 =>
      exists cur1 g1, reach r1 cur g cur1 g1 /\ reach r2 cur1 g1 cur' g'
  | Alt r1 r2 => reach r1 cur g cur' g' \/ reach r2 cur g cur' g'
  | Star r1 => iter (reach r1) cur g cur' g'
  | Group r1 =>
      exists g1, reach r1 cur g cur' g1 /\ g' = Some (consumed cur cur')
  | Bound => at_boundary cur = true /\ cur' = cur /\ g' = g
  | Eos => at_end cur = true /\ cur' = cur /\ g' = g
  | NotAhead r1 =>
      rmatch r1 cur g (fun cur1 g1 => Some (g1, cur1)) = None /\
      cur' = cur /\ g' = g
  end.

Lemma star_loop_sound step R k fuel cur g res :
  (forall cur g k res,
     step cur g k = Some res ->
     exists cur' g', R cur g cur' g' /\ k cur' g' = Some res) ->
  star_loop step k fuel cur g = Some res ->
  exists cur' g', iter R cur g cur' g' /\ k cur' g' = Some res.
Proof.
  intros Hstep. revert cur g. induction fuel as [| fuel IH]; intros cur g.
  - simpl. intros Hk. exists cur, g. split; [constructor | done].
  - simpl. destruct (step cur g _) as [res' |] eqn:Hround.
    + intros [= ->]. apply Hstep in Hround as (cur1 & g1 & HR & Hk).
      destruct (length (rest cur1) <? length (rest cur)); [| discriminate].
      apply IH in Hk as (cur2 & g2 & Hiter & Hk).
      exists cur2, g2. split; [by eapply iter_step | done].
    + intros Hk. exists cur, g. split; [constructor | done].
Qed.

(** Whatever the matcher finds, the pattern can read. *)
Lemma rmatch_sound r cur g k res :
  rmatch r cur g k = Some res ->
  exists cur' g', reach r cur g cur' g' /\ k cur' g' = Some res.
Proof.
  revert cur g k res.
  induction r as [| f | r1 IH1 r2 IH2 | r1 IH1 r2 IH2 | r1 IH1 | r1 IH1
                  | | | r1 IH1]; intros cur g k res; simpl.
  - intros Hk. by exists cur, g.
  - destruct (rest cur) as [| c tl] eqn:Hrest; [done |].
    destruct (f c) eqn:Hf; [| done].
    intros Hk. exists (Cursor (Some c) tl), g. split; [| done].
    by exists c, tl.
  - intros Hm. apply IH1 in Hm as (cur1 & g1 & H1 & Hm).
    apply IH2 in Hm as (cur2 & g2 & H2 & Hk).
    exists cur2, g2. split; [by exists cur1, g1 | done].
  - destruct (rmatch r1 cur g k) as [res' |] eqn:Hleft.
    + intros [= ->]. apply IH1 in Hleft as (cur1 & g1 & H1 & Hk).
      exists cur1, g1. split; [by left | done].
    + intros Hm. apply IH2 in Hm as (cur2 & g2 & H2 & Hk).
      exists cur2, g2. split; [by right | done].
  - intros Hm. eapply star_loop_sound in Hm; [exact Hm |].
    intros cur0 g0 k0 res0. apply IH1.
  - intros Hm. apply IH1 in Hm as (cur1 & g1 & H1 & Hk).
    exists cur1, (Some (consumed cur cur1)). split; [by exists g1 | done].
  - destruct (at_boundary cur) eqn:Hb; [| done].
    intros Hk. by exists cur, g.
  - destruct (at_end cur) eqn:He; [| done].
    intros Hk. by exists cur, g.
  - destruct (rmatch r1 cur g _) eqn:Hahead; [done |].
    intros Hk. by exists cur, g.
Qed.

(** A pattern reads a prefix of what is left. *)
Lemma reach_rest r cur g cur' g' :
  reach r cur g cur' g' -> exists s, rest cur = s ++ rest cur'.
Proof.
  revert cur g cur' g'.
  induction r as [| f | r1 IH1 r2 IH2 | r1 IH1 r2 IH2 | r1 IH1 | r1 IH1
                  | | | r1 IH1]; intros cur g cur' g'; simpl.
  - intros [-> _]. by exists [].
  - intros (c & tl & Hrest & _ & -> & _). exists [c]. by rewrite Hrest.
  - intros (cur1 & g1 & H1 & H2).
    apply IH1 in H1 as [s1 E1]. apply IH2 in H2 as [s2 E2].
    exists (s1 ++ s2). by rewrite E1, E2, app_assoc.
  - intros [H1 | H2]; [by eapply IH1 | by eapply IH2].
  - induction 1 as [| cur g cur1 g1 cur2 g2 Hstep _ [s2 E2]].
    + by exists [].
    + apply IH1 in Hstep as [s1 E1].
      exists (s1 ++ s2). by rewrite E1, E2, app_assoc.
  - intros (g1 & H1 & _). by eapply IH1.
  - intros (_ & -> & _). by exists [].
  - intros (_ & -> & _). by exists [].
  - intros (_ & -> & _). by exists [].
Qed.

Lemma consumed_app before0 s before1 tl :
  consumed (Cursor before0 (s ++ tl)) (Cursor before1 tl) = s.
Proof.
  unfold consumed. simpl. rewrite length_app.
  replace (length s + length tl - length tl) with (length s) by lia.
  apply take_app_length.
Qed.

(** A pattern without the group leaves the group as it is. *)
Lemma reach_group_free r cur g cur' g' :
  group_free r = true -> reach r cur g cur' g' -> g' = g.
Proof.
  revert cur g cur' g'.
  induction r as [| f | r1 IH1 r2 IH2 | r1 IH1 r2 IH2 | r1 IH1 | r1 IH1
                  | | | r1 IH1]; intros cur g cur' g'; simpl; intros Hfree.
  - by intros [_ ->].
  - by intros (c & tl & _ & _ & _ & ->).
  - apply andb_true_iff in Hfree as [F1 F2].
    intros (cur1 & g1 & H1 & H2).
    apply IH1 in H1; [| done]. apply IH2 in H2; [| done]. congruence.
  - apply andb_true_iff in Hfree as [F1 F2].
    intros [H1 | H2]; [by eapply IH1 | by eapply IH2].
  - induction 1 as [| cur g cur1 g1 cur2 g2 Hstep _ IHiter]; [done |].
    apply IH1 in Hstep; [| done]. congruence.
  - done.
  - by intros (_ & _ & ->).
  - by intros (_ & _ & ->).
  - by intros (_ & _ & ->).
Qed.

Lemma group_free_LitI s : group_free (LitI s) = true.
Proof. induction s as [| c s IH]; simpl; done. Qed.

Lemma group_free_UpTo n r : group_free r = true -> group_free (UpTo n r) = true.
Proof.
  intros Hr. induction n as [| n IH]; simpl; [done |].
  by rewrite Hr, IH.
Qed.
End MatcherFacts.

(* ===================================================================== *)
(** ** The bound on the rounds of a repetition never cuts it short *)
(* ===================================================================== *)

Section StarFuel.
Context `{Unicode}.

(** A matcher step that only looks at what its continuation answers. *)
Definition uses_continuation
    (step : cursor -> option str -> cont -> option found) : Prop :=
  (forall cur g k k',
     (forall cur' g', k cur' g' = k' cur' g') -> step cur g k = step cur g k') /\
  (forall cur g, step cur g (fun _ _ => None) = None).

Lemma star_loop_ext step k k' fuel cur g :
  uses_continuation step ->
  (forall cur' g', k cur' g' = k' cur' g') ->
  star_loop step k fuel cur g = star_loop step k' fuel cur g.
Proof.
  intros [Hext Hnone] Hk. revert cur g.
  induction fuel as [| fuel IH]; intros cur g; simpl; [apply Hk |].
  rewrite (Hext cur g _
             (fun cur' g' =>
                if length (rest cur') <? length (rest cur)
                then star_loop step k' fuel cur' g' else None)).
  - by rewrite Hk.
  - intros cur' g'. destruct (_ <? _); [apply IH | done].
Qed.

Lemma star_loop_none step fuel cur g :
  uses_continuation step ->
  star_loop step (fun _ _ => None) fuel cur g = None.
Proof.
  intros [Hext Hnone]. revert cur g.
  induction fuel as [| fuel IH]; intros cur g; simpl; [done |].
  rewrite (Hext cur g _ (fun _ _ => None)).
  - by rewrite Hnone.
  - intros cur' g'. destruct (_ <? _); [apply IH | done].
Qed.

Lemma rmatch_uses_continuation r : uses_continuation (rmatch r).
Proof.
  induction r as [| f | r1 IH1 r2 IH2 | r1 IH1 r2 IH2 | r1 IH1 | r1 IH1
                  | | | r1 IH1]; split; simpl.
  - intros cur g k k' Hk. apply Hk.
  - done.
  - intros cur g k k' Hk. destruct (rest cur) as [| c tl]; [done |].
    destruct (f c); [apply Hk | done].
  - intros cur g. destruct (rest cur) as [| c tl]; [done |].
    by destruct (f c).
  - intros cur g k k' Hk. apply IH1. intros cur' g'. by apply IH2.
  - intros cur g. rewrite (proj1 IH1 cur g _ (fun _ _ => None)).
    + apply IH1.
    + intros cur' g'. apply IH2.
  - intros cur g k k' Hk.
    by rewrite (proj1 IH1 cur g k k'), (proj1 IH2 cur g k k').
  - intros cur g. by rewrite (proj2 IH1), (proj2 IH2).
  - intros cur g k k' Hk. by apply star_loop_ext.
  - intros cur g. by apply star_loop_none.
  - intros cur g k k' Hk. apply IH1. intros cur' g'. apply Hk.
  - intros cur g. apply IH1.
  - intros cur g k k' Hk. destruct (at_boundary cur); [apply Hk | done].
  - intros cur g. by destruct (at_boundary cur).
  - intros cur g k k' Hk. destruct (at_end cur); [apply Hk | done].
  - intros cur g. by destruct (at_end cur).
  - intros cur g k k' Hk. destruct (rmatch r1 cur g _); [done | apply Hk].
  - intros cur g. by destruct (rmatch r1 cur g _).
Qed.

(** With at least as many rounds allowed as characters are left, the
    repetition does not depend on the number of rounds allowed. *)
Lemma star_loop_fuel step k fuel fuel' cur g :
  uses_continuation step ->
  length (rest cur) <= fuel -> length (rest cur) <= fuel' ->
  star_loop step k fuel cur g = star_loop step k fuel' cur g.
Proof.
  intros Hstep. pose proof Hstep as [Hext Hnone].
  revert fuel' cur g.
  induction fuel as [| fuel IH]; intros fuel' cur g Hfuel Hfuel'.
  - assert (Hlen : length (rest cur) = 0) by lia.
    destruct fuel' as [| fuel']; simpl; [done |].
    rewrite (Hext cur g _ (fun _ _ => None)).
    + by rewrite Hnone.
    + intros cur' g'. rewrite Hlen.
      by destruct (length (rest cur') <? 0) eqn:E;
        [apply Nat.ltb_lt in E; lia |].
  - destruct fuel' as [| fuel'].
    + assert (Hlen : length (rest cur) = 0) by lia. simpl.
      rewrite (Hext cur g _ (fun _ _ => None)).
      * by rewrite Hnone.
      * intros cur' g'. rewrite Hlen.
        by destruct (length (rest cur') <? 0) eqn:E;
          [apply Nat.ltb_lt in E; lia |].
    + simpl.
      rewrite (Hext cur g _
                 (fun cur' g' =>
                    if length (rest cur') <? length (rest cur)
                    then star_loop step k fuel' cur' g' else None));
        [done |].
      intros cur' g'. destruct (_ <? _) eqn:E; [| done].
      apply Nat.ltb_lt in E. apply IH; lia.
Qed.
End StarFuel.

(* ===================================================================== *)
(** ** Normalization of the last name *)
(* ===================================================================== *)

(** The character before the position reached by reading [run]. *)
Definition before_after (prev : option N) (run : str) : option N :=
  fold_left (fun _ c => Some c) run prev.

Section NormalizeFacts.
Context `{Unicode}.

Lemma rmatch_seq r1 r2 cur g k :
  rmatch (Seq r1 r2) cur g k
  = rmatch r1 cur g (fun cur' g' => rmatch r2 cur' g' k).
Proof. reflexivity. Qed.

Lemma rmatch_star r cur g k :
  rmatch (Star r) cur g k = star_loop (rmatch r) k (length (rest cur)) cur g.
Proof. reflexivity. Qed.

Lemma rmatch_chr f prev c tl g k :
  rmatch (Chr f) (Cursor prev (c :: tl)) g k
  = if f c then k (Cursor (Some c) tl) g else None.
Proof. reflexivity. Qed.

(** A greedy class repetition reads a whole run of the class when the
    rest of the pattern succeeds behind the run. *)
Lemma star_class_run f k run tail prev g res fuel :
  Forall (fun c => f c = true) run ->
  match tail with
  | c :: _ => f c = false
  | [] => True
  end ->
  length (run ++ tail) <= fuel ->
  k (Cursor (before_after prev run) tail) g = Some res ->
  star_loop (rmatch (Chr f)) k fuel (Cursor prev (run ++ tail)) g = Some res.
Proof.
  intros Hrun Htail. revert prev fuel.
  induction Hrun as [| c run Hc _ IH]; intros prev fuel Hfuel Hk.
  - simpl in Hk. destruct fuel as [| fuel]; simpl; [apply Hk |].
    destruct tail as [| c tl]; [apply Hk |]. rewrite Htail. apply Hk.
  - destruct fuel as [| fuel]; [simpl in Hfuel; lia |].
    cbn [star_loop app]. rewrite rmatch_chr, Hc. cbn [rest].
    assert ((length (run ++ tail) <? length (c :: run ++ tail)) = true)
      as -> by (apply Nat.ltb_lt; simpl; lia).
    rewrite (IH (Some c)); [done | simpl in Hfuel; lia | done].
Qed.

(** After whitespace and then a character that is neither whitespace nor
    an opening parenthesis, the pattern of the parenthetical fails. *)
Lemma parenthesis_needed rest_pattern k w c tl prev g fuel :
  isspace 40 = false ->
  Forall (fun d => isspace d = true) w ->
  isspace c = false -> c <> 40%N ->
  length (w ++ c :: tl) <= fuel ->
  star_loop (rmatch Space)
    (fun cur' g' => rmatch (Seq (Chr (N.eqb 40)) rest_pattern) cur' g' k)
    fuel (Cursor prev (w ++ c :: tl)) g = None.
Proof.
  intros Hparen Hw Hc Hne. revert prev fuel.
  assert (Hno : forall d, d <> 40%N -> (40 =? d)%N = false).
  { intros d Hd. apply N.eqb_neq. congruence. }
  induction Hw as [| d w Hd _ IH]; intros prev fuel Hfuel.
  - destruct fuel as [| fuel]; [simpl in Hfuel; lia |].
    cbn [star_loop app]. unfold Space at 1. rewrite rmatch_chr, Hc.
    by rewrite rmatch_seq, rmatch_chr, Hno.
  - destruct fuel as [| fuel]; [simpl in Hfuel; lia |].
    cbn [star_loop app]. unfold Space at 1. rewrite rmatch_chr, Hd.
    cbn [rest].
    assert ((length (w ++ c :: tl) <? length (d :: w ++ c :: tl)) = true)
      as -> by (apply Nat.ltb_lt; simpl; lia).
    rewrite IH by (simpl in Hfuel; lia).
    rewrite rmatch_seq, rmatch_chr, Hno; [done |]. intros ->. congruence.
Qed.

Lemma trailing_parenthetical_fails prev w c tl :
  isspace 40 = false ->
  Forall (fun d => isspace d = true) w ->
  isspace c = false -> c <> 40%N ->
  match_at trailing_parenthetical (Cursor prev (w ++ c :: tl)) = None.
Proof.
  intros Hparen Hw Hc Hne. unfold match_at, trailing_parenthetical.
  rewrite rmatch_seq, rmatch_star. by apply parenthesis_needed.
Qed.

Lemma trailing_parenthetical_matches prev ws1 q ws2 :
  isspace 40 = false ->
  Forall (fun d => isspace d = true) ws1 ->
  Forall (fun d => d <> 41%N) q ->
  Forall (fun d => isspace d = true) ws2 ->
  exists b,
    match_at trailing_parenthetical
      (Cursor prev (ws1 ++ 40%N :: q ++ 41%N :: ws2))
    = Some (None, Cursor b []).
Proof.
  intros Hparen Hws1 Hq Hws2. exists (before_after (Some 41%N) ws2).
  unfold match_at, trailing_parenthetical.
  rewrite rmatch_seq, rmatch_star.
  apply star_class_run; [done | done | done |].
  rewrite rmatch_seq, rmatch_chr, N.eqb_refl, rmatch_seq, rmatch_star.
  apply star_class_run.
  - eapply Forall_impl; [exact Hq |]. intros d Hd. simpl.
    apply negb_true_iff. by apply N.eqb_neq.
  - done.
  - done.
  - rewrite rmatch_seq, rmatch_chr, N.eqb_refl, rmatch_seq, rmatch_star.
    cbn [rest].
    pose proof (star_class_run isspace
                  (fun cur' g' => rmatch Eos cur' g'
                                    (fun cur1 g1 => Some (g1, cur1)))
                  ws2 [] (Some 41%N) None
                  (None, Cursor (before_after (Some 41%N) ws2) [])
                  (length ws2)) as Hrun.
    rewrite app_nil_r in Hrun. by apply Hrun.
Qed.

Lemma sub_empty_from_skip r prev text n :
  length text <= n -> sub_empty_from r prev text n = [].
Proof.
  revert prev n. induction text as [| c tl IH]; intros prev n Hn.
  - destruct n; simpl; [| done].
    destruct (match_at r (Cursor prev [])) as [[g stop] |]; [| done].
    by destruct (0 - length (rest stop)).
  - destruct n as [| n]; [simpl in Hn; lia |]. simpl.
    apply IH. simpl in Hn. lia.
Qed.

(** Where the pattern matches nowhere, the text is kept. *)
Lemma sub_empty_from_keep r pre post prev :
  (forall b pre1 pre2,
     pre = pre1 ++ pre2 -> pre2 <> [] ->
     match_at r (Cursor b (pre2 ++ post)) = None) ->
  exists b',
    sub_empty_from r prev (pre ++ post) 0
    = pre ++ sub_empty_from r b' post 0.
Proof.
  revert prev. induction pre as [| c pre IH]; intros prev Hfail.
  - by exists prev.
  - pose proof (Hfail prev [] (c :: pre) eq_refl ltac:(done)) as Hhere.
    cbn [app] in Hhere. cbn [app sub_empty_from]. rewrite Hhere.
    destruct (IH (Some c)) as [b' Hb'].
    { intros b pre1 pre2 -> Hne. by apply (Hfail b (c :: pre1) pre2). }
    exists b'. by rewrite Hb'.
Qed.

(** A text is some text that is empty or ends with a character that is
    not whitespace, followed by whitespace only. *)
Lemma split_trailing_whitespace (s : str) :
  exists body ws,
    s = body ++ ws /\
    Forall (fun d => isspace d = true) ws /\
    (body = [] \/ exists body' d, body = body' ++ [d] /\ isspace d = false).
Proof.
  induction s as [| x s IH] using rev_ind.
  - exists [], []. repeat split; [constructor | by left].
  - destruct (isspace x) eqn:Hx.
    + destruct IH as (body & ws & -> & Hws & Hbody).
      exists body, (ws ++ [x]). repeat split.
      * by rewrite app_assoc.
      * apply Forall_app. split; [done |]. by constructor.
      * done.
    + exists (s ++ [x]), []. repeat split.
      * by rewrite app_nil_r.
      * constructor.
      * right. by exists s, x.
Qed.

(** A text that ends with a character that is not whitespace begins with
    whitespace and then such a character. *)
Lemma split_leading_whitespace (s : str) d :
  isspace d = false ->
  exists w c tl,
    s ++ [d] = w ++ c :: tl /\
    Forall (fun e => isspace e = true) w /\
    isspace c = false /\ In c (s ++ [d]).
Proof.
  intros Hd. induction s as [| x s IH].
  - exists [], d, []. repeat split; [constructor | done | by left].
  - destruct (isspace x) eqn:Hx.
    + destruct IH as (w & c & tl & E & Hw & Hc & Hin).
      exists (x :: w), c, tl. simpl.
      split; [by rewrite E |]. split; [by constructor |].
      split; [done | by right].
    + exists [], x, (s ++ [d]).
      repeat split; [constructor | done | by left].
Qed.

Lemma lstrip_whitespace_app w s :
  Forall (fun d => isspace d = true) w -> lstrip (w ++ s) = lstrip s.
Proof. induction 1 as [| d w Hd _ IH]; simpl; [done |]. by rewrite Hd. Qed.

Lemma lstrip_app_body s d ws :
  isspace d = false -> lstrip ((s ++ [d]) ++ ws) = lstrip (s ++ [d]) ++ ws.
Proof.
  intros Hd. induction s as [| x s IH]; simpl.
  - by rewrite Hd.
  - destruct (isspace x); [exact IH | done].
Qed.

Lemma rstrip_app_whitespace s ws :
  Forall (fun d => isspace d = true) ws -> rstrip (s ++ ws) = rstrip s.
Proof.
  intros Hws. unfold rstrip. rewrite rev_app_distr.
  rewrite lstrip_whitespace_app; [done |]. by apply List.Forall_rev.
Qed.

Lemma strip_app_whitespace body ws :
  Forall (fun d => isspace d = true) ws ->
  body = [] \/ (exists body' d, body = body' ++ [d] /\ isspace d = false) ->
  strip (body ++ ws) = strip body.
Proof.
  intros Hws [-> | (body' & d & -> & Hd)]; unfold strip.
  - simpl. rewrite <- (app_nil_r ws) at 1.
    by rewrite lstrip_whitespace_app.
  - rewrite lstrip_app_body by done. by apply rstrip_app_whitespace.
Qed.

(** Normalization removes a parenthetical at the end of the last name,
    with the whitespace around it: a last name without an opening
    parenthesis, followed by whitespace, a parenthetical without a closing
    parenthesis inside and whitespace, normalizes to the stripped last
    name. *)
Lemma _normalize_last_name_strips_parenthetical base ws1 q ws2 :
  isspace 40 = false ->
  Forall (fun d => d <> 40%N) base ->
  Forall (fun d => isspace d = true) ws1 ->
  Forall (fun d => d <> 41%N) q ->
  Forall (fun d => isspace d = true) ws2 ->
  _normalize_last_name (base ++ ws1 ++ 40%N :: q ++ 41%N :: ws2)
  = strip base.
Proof.
  intros Hparen Hbase Hws1 Hq Hws2. unfold _normalize_last_name, sub_empty.
  destruct (split_trailing_whitespace base) as (body & ws & -> & Hws & Hbody).
  set (tail := (ws ++ ws1) ++ 40%N :: q ++ 41%N :: ws2).
  replace ((body ++ ws) ++ ws1 ++ 40%N :: q ++ 41%N :: ws2)
    with (body ++ tail) by (subst tail; by rewrite <- !app_assoc).
  destruct (sub_empty_from_keep trailing_parenthetical body tail None)
    as [b' ->].
  { intros b pre1 pre2 -> Hne.
    destruct Hbody as [Hnil | (body' & d & Hbody & Hd)].
    { by destruct pre1, pre2. }
    assert (exists p, pre2 = p ++ [d]) as [p ->].
    { induction pre2 as [| x pre2 _] using rev_ind; [done |].
      rewrite app_assoc in Hbody. apply app_inj_tail in Hbody as [_ ->].
      by exists pre2. }
    destruct (split_leading_whitespace p d Hd) as (w & c & tl & E & Hw & Hc & Hin).
    rewrite E, <- app_assoc. cbn [app].
    apply trailing_parenthetical_fails; [done | done | done |].
    rewrite Forall_forall in Hbase. apply Hbase.
    apply list_elem_of_In, in_or_app. left. apply in_or_app. by right. }
  destruct (trailing_parenthetical_matches b' (ws ++ ws1) q ws2)
    as [b Hmatch]; [done | by apply Forall_app | done | done |].
  fold tail in Hmatch.
  assert (exists c tl, tail = c :: tl) as (c & tl & Etail).
  { subst tail. destruct (ws ++ ws1); simpl; eauto. }
  rewrite Etail in Hmatch |- *. cbn [sub_empty_from]. rewrite Hmatch.
  cbn [rest length]. rewrite Nat.sub_0_r.
  rewrite sub_empty_from_skip by done.
  rewrite app_nil_r. symmetry. by apply strip_app_whitespace.
Qed.
End NormalizeFacts.

(** With the ASCII tables: whatever the qualifier in parentheses, it is
    removed with the whitespace around it. *)
Example normalize_strips_any_qualifier (q : str) :
  Forall (fun d => d <> 41%N) q ->
  _normalize_last_name (cp "Smith " ++ 40%N :: q ++ 41%N :: cp " ")
  = cp "Smith".
Proof.
  intros Hq.
  pose proof (_normalize_last_name_strips_parenthetical
                (cp "Smith") (cp " ") q (cp " ")) as Hnorm.
  change (cp "Smith " ++ 40%N :: q ++ 41%N :: cp " ")
    with (cp "Smith" ++ cp " " ++ 40%N :: q ++ 41%N :: cp " ").
  rewrite Hnorm; [reflexivity | reflexivity | | | done |].
  - repeat constructor; discriminate.
  - repeat constructor.
  - repeat constructor.
Qed.

(* ===================================================================== *)
(** ** What the name pattern captures, and what cleanup makes of it *)
(* ===================================================================== *)

Section NameFacts.
Context `{Unicode}.

Definition tokchar (c : N) : Prop :=
  LETTER_CLASS c = true \/ joiner c = true.

(** The texts [_token_pattern] reads: letters and joiners, with a letter
    first and a letter last. *)
Definition token_shape (s : str) : Prop :=
  (exists c tl, s = c :: tl /\ LETTER_CLASS c = true) /\
  (exists s0 d, s = s0 ++ [d] /\ LETTER_CLASS d = true) /\
  Forall tokchar s.

Lemma letter_alnum c : LETTER_CLASS c = true -> isalnum c = true.
Proof.
  unfold LETTER_CLASS, is_word. intros Hc.
  apply andb_true_iff in Hc as [Hc Hu].
  apply andb_true_iff in Hc as [Hw _].
  apply negb_true_iff in Hu. rewrite Hu in Hw.
  by rewrite orb_false_r in Hw.
Qed.

Lemma letter_not_space c : LETTER_CLASS c = true -> isspace c = false.
Proof. intros Hc. by apply alnum_not_space, letter_alnum. Qed.

Lemma letter_not_period c : LETTER_CLASS c = true -> c <> 46%N.
Proof.
  intros Hc ->. apply letter_alnum in Hc.
  rewrite period_not_alnum in Hc. discriminate.
Qed.

Lemma joiner_not_period c : joiner c = true -> c <> 46%N.
Proof. intros Hc ->. discriminate. Qed.

Lemma tokchar_not_period c : tokchar c -> c <> 46%N.
Proof. intros [Hc | Hc]; [by apply letter_not_period | by apply joiner_not_period]. Qed.

Abbreviation token_more :=
  (Alt (Chr LETTER_CLASS) (Seq (Chr joiner) (Chr LETTER_CLASS))).

Lemma token_more_reach cur g cur' g' :
  iter (reach token_more) cur g cur' g' ->
  exists s,
    rest cur = s ++ rest cur' /\ Forall tokchar s /\
    (s = [] \/ exists s0 d, s = s0 ++ [d] /\ LETTER_CLASS d = true).
Proof.
  induction 1 as [cur g | cur g cur1 g1 cur2 g2 Hstep _ IH].
  - exists []. repeat split; [constructor | by left].
  - destruct IH as (s2 & E2 & Hall2 & Hlast2).
    assert (exists s1 d,
              rest cur = (s1 ++ [d]) ++ rest cur1 /\ Forall tokchar (s1 ++ [d])
              /\ LETTER_CLASS d = true) as (s1 & d & E1 & Hall1 & Hd).
    { cbn [reach] in Hstep.
      destruct Hstep as [(c & tl & Hrest & Hc & -> & _)
                        | (curj & gj & (j & tlj & Hrest & Hj & -> & _)
                           & (c & tl & Hrest' & Hc & -> & _))].
      - exists [], c. repeat split; [done | | done].
        simpl. constructor; [by left | constructor].
      - exists [j], c. simpl in *. subst tlj. repeat split; [done | | done].
        constructor; [by right |]. constructor; [by left | constructor]. }
    exists ((s1 ++ [d]) ++ s2). repeat split.
    + by rewrite E1, E2, app_assoc.
    + by apply Forall_app.
    + right. destruct Hlast2 as [-> | (s0 & d' & -> & Hd')].
      * exists s1, d. by rewrite app_nil_r.
      * exists ((s1 ++ [d]) ++ s0), d'. by rewrite app_assoc.
Qed.

Lemma token_reach cur g cur' g' :
  reach _token_pattern cur g cur' g' ->
  exists s, rest cur = s ++ rest cur' /\ token_shape s.
Proof.
  unfold _token_pattern. cbn [reach].
  intros (cur1 & g1 & (c & tl & Hrest & Hc & -> & ->) & Hiter).
  apply token_more_reach in Hiter as (s2 & E2 & Hall2 & Hlast2).
  simpl in E2. subst tl. exists (c :: s2). repeat split.
  - done.
  - by exists c, s2.
  - destruct Hlast2 as [-> | (s0 & d & -> & Hd)].
    + by exists [], c.
    + by exists (c :: s0), d.
  - constructor; [by left | done].
Qed.

(** Group [first] of a match of the name pattern is a token. *)
Lemma name_capture_shape last_name cur s stop :
  match_at (_build_name_pattern last_name) cur = Some (Some s, stop) ->
  token_shape s.
Proof.
  unfold match_at. intros Hm.
  apply rmatch_sound in Hm as (cur' & g' & Hreach & [= -> ->]).
  unfold _build_name_pattern in Hreach. cbv zeta in Hreach.
  set (tailr := Seq (Plus Space) _) in Hreach.
  assert (Hfree : group_free tailr = true).
  { subst tailr. cbn [group_free Plus Space]. rewrite group_free_LitI.
    rewrite group_free_UpTo; done. }
  cbn [reach] in Hreach.
  destruct Hreach as (cur1 & g1 & (_ & -> & ->) &
                      cur2 & g2 &
                      (cur3 & g3 & (g4 & Htoken & ->) & Hopt) & Htail).
  apply reach_group_free in Htail; [| done].
  apply reach_group_free in Hopt; [| done]. subst g2.
  injection Htail as ->.
  apply token_reach in Htoken as (s' & Hrest & Hshape).
  destruct cur as [b0 r0], cur3 as [b3 r3]. simpl in Hrest. subst r0.
  by rewrite consumed_app.
Qed.

Lemma finditer_from_match r prev text skip g :
  In g (finditer_from r prev text skip) ->
  exists cur stop, match_at r cur = Some (g, stop).
Proof.
  revert prev skip. induction text as [| c tl IH]; intros prev skip.
  - destruct skip; simpl; [| done].
    destruct (match_at r (Cursor prev [])) as [[g0 stop] |] eqn:Hm; [| done].
    intros [<- | []]. by exists (Cursor prev []), stop.
  - destruct skip; simpl.
    + destruct (match_at r (Cursor prev (c :: tl))) as [[g0 stop] |] eqn:Hm.
      * intros [<- | Hin]; [by exists (Cursor prev (c :: tl)), stop |].
        by eapply IH.
      * apply IH.
    + apply IH.
Qed.

Lemma finditer_name_captures last_name text s :
  In (Some s) (finditer (_build_name_pattern last_name) text) ->
  token_shape s.
Proof.
  intros Hin. apply finditer_from_match in Hin as (cur & stop & Hm).
  by eapply name_capture_shape.
Qed.

Lemma lstrip_keeps c tl : isspace c = false -> lstrip (c :: tl) = c :: tl.
Proof. intros Hc. simpl. by rewrite Hc. Qed.

(** [strip] leaves a token as it is. *)
Lemma strip_token s : token_shape s -> strip s = s.
Proof.
  intros ((c & tl & -> & Hc) & (s0 & d & E & Hd) & _).
  unfold strip, rstrip. rewrite lstrip_keeps by by apply letter_not_space.
  rewrite E, rev_unit, lstrip_keeps by by apply letter_not_space.
  by rewrite <- rev_unit, rev_involutive.
Qed.

Lemma remove_char_absent c s :
  Forall (fun d => d <> c) s -> remove_char c s = s.
Proof.
  induction 1 as [| d s Hd _ IH]; simpl; [done |].
  apply N.eqb_neq in Hd. by rewrite Hd, IH.
Qed.

Definition digit_or_underscore (char : N) : bool :=
  isdigit char || (char =? 95)%N.

(** On a token, cleanup either rejects a digit or an underscore, or puts
    the first character in upper case and keeps the others. *)
Lemma clean_token s :
  token_shape s ->
  exists c tl,
    s = c :: tl /\
    _clean_candidate s =
      if existsb digit_or_underscore s then Ret None
      else Ret (Some (upper c ++ tl)).
Proof.
  intros Hshape. pose proof Hshape as ((c & tl & -> & Hc) & _ & Hall).
  exists c, tl. split; [done |].
  unfold _clean_candidate. rewrite strip_token by done.
  rewrite remove_char_absent.
  - cbn [truthy negb]. fold digit_or_underscore.
    destruct (existsb digit_or_underscore (c :: tl)); [done |].
    destruct tl; [by rewrite app_nil_r | done].
  - eapply Forall_impl; [exact Hall |]. apply tokchar_not_period.
Qed.

(** A name made by cleanup from a capture among [captures]. *)
Definition cleaned_from (captures : list (option str)) (first : str) : Prop :=
  exists c tl,
    In (Some (c :: tl)) captures /\
    token_shape (c :: tl) /\
    existsb digit_or_underscore (c :: tl) = false /\
    first = upper c ++ tl.

Lemma cleaned_from_cons g captures first :
  cleaned_from captures first -> cleaned_from (g :: captures) first.
Proof.
  intros (c & tl & Hin & Hrest). exists c, tl. split; [by right | done].
Qed.

(** The loop over the matches never raises on captures that are tokens,
    and what it accepts is a cleaned capture that is not empty. *)
Lemma first_accepted_tokens captures require_capitalized :
  (forall s, In (Some s) captures -> token_shape s) ->
  exists o,
    first_accepted captures require_capitalized = Ret o /\
    forall first, o = Some first ->
      truthy first = true /\ cleaned_from captures first.
Proof.
  induction captures as [| g later IH]; intros Hshape.
  - exists None. split; [done | intros first [=]].
  - destruct IH as (o & Hlater & Ho).
    { intros s Hs. apply Hshape. by right. }
    assert (Hskip : exists o',
              first_accepted later require_capitalized = Ret o' /\
              forall first, o' = Some first ->
                truthy first = true /\ cleaned_from (g :: later) first).
    { exists o. split; [done |]. intros first Hfirst.
      destruct (Ho first Hfirst) as [Ht Hc].
      split; [done | by apply cleaned_from_cons]. }
    destruct g as [s |]; [| exact Hskip]. cbn [first_accepted].
    destruct (truthy s); cbn [negb]; [| exact Hskip].
    destruct (clean_token s) as (c & tl & -> & Hclean);
      [apply Hshape; by left |].
    rewrite Hclean.
    destruct (existsb digit_or_underscore (c :: tl)) eqn:Hdigit;
      [exact Hskip |].
    destruct (truthy (upper c ++ tl)) eqn:Htruthy; cbn [negb];
      [| exact Hskip].
    destruct (require_capitalized && negb (leading_isupper (upper c ++ tl)));
      [exact Hskip |].
    destruct (bool_decide _); [exact Hskip |].
    exists (Some (upper c ++ tl)). split; [done |].
    intros first [= <-]. split; [done |].
    exists c, tl. split; [by left |]. split; [apply Hshape; by left |].
    by split.
Qed.

(** A cleaned capture holds no period, no underscore and no digit. *)
Lemma cleaned_from_plain captures first d :
  cleaned_from captures first -> In d first ->
  d <> 46%N /\ d <> 95%N /\ isdigit d = false.
Proof.
  intros (c & tl & _ & (_ & _ & Hall) & Hdigit & ->) Hd.
  assert (Hchars : forall e, In e (c :: tl) ->
            e <> 46%N /\ e <> 95%N /\ isdigit e = false).
  { intros e He. repeat split.
    - apply tokchar_not_period. rewrite Forall_forall in Hall.
      apply Hall. by apply list_elem_of_In.
    - intros ->.
      assert (existsb digit_or_underscore (c :: tl) = true) as Hex.
      { apply existsb_exists. exists 95%N. split; [done |].
        unfold digit_or_underscore. by rewrite orb_true_r. }
      rewrite Hex in Hdigit. discriminate.
    - destruct (isdigit e) eqn:Hdig; [| done].
      assert (existsb digit_or_underscore (c :: tl) = true) as Hex.
      { apply existsb_exists. exists e. split; [done |].
        unfold digit_or_underscore. by rewrite Hdig. }
      rewrite Hex in Hdigit. discriminate. }
  apply in_app_or in Hd as [Hd | Hd].
  - destruct (upper_plain c d Hd) as (Hp & Hu & Hdig).
    destruct (Hchars c) as (Hcp & Hcu & Hcd); [by left |].
    repeat split.
    + intros ->. by apply Hcp, Hp.
    + intros ->. by apply Hcu, Hu.
    + destruct (isdigit d) eqn:E; [| done].
      rewrite Hdig in Hcd; done.
  - apply Hchars. by right.
Qed.

Lemma _extract_from_pattern_tokens last_name text require_capitalized :
  exists o,
    _extract_from_pattern (_build_name_pattern last_name) text
      require_capitalized = Ret o /\
    forall first, o = Some first ->
      truthy first = true /\
      cleaned_from (finditer (_build_name_pattern last_name) text) first.
Proof.
  unfold _extract_from_pattern. apply first_accepted_tokens.
  intros s. apply finditer_name_captures.
Qed.

(** The name matcher never raises, and the name it returns is a cleaned
    capture of the name pattern, from the strict or the relaxed pass. *)
Lemma _find_name_in_text_total text last_name :
  exists o,
    _find_name_in_text text last_name = Ret o /\
    forall first, o = Some first ->
      truthy first = true /\
      cleaned_from
        (finditer (_build_name_pattern (_normalize_last_name last_name)) text)
        first.
Proof.
  unfold _find_name_in_text.
  destruct (negb (truthy text) || negb (truthy last_name));
    [exists None; split; [done | intros first [=]] |].
  cbv zeta.
  destruct (negb (truthy (_normalize_last_name last_name)));
    [exists None; split; [done | intros first [=]] |].
  destruct (negb (str_in _ _));
    [exists None; split; [done | intros first [=]] |].
  destruct (_extract_from_pattern_tokens (_normalize_last_name last_name)
              text true) as (o & -> & Ho).
  destruct (truthy_opt o) eqn:Htruthy.
  - by exists o.
  - destruct (existsb _ STRUCTURED_HINTS).
    + apply _extract_from_pattern_tokens.
    + exists None. split; [done | intros first [=]].
Qed.
End NameFacts.

(* ===================================================================== *)
(** ** The name matcher on the examples of the specification *)
(* ===================================================================== *)

(** With the ASCII tables, cleanup makes the first character of a capture
    that begins with a letter an upper-case letter, so the check of the
    strict pass, made after cleanup, lets every such capture through. *)
Lemma leading_isupper_after_cleanup (c : N) (tl : str) :
  ascii_isupper c = true \/ ascii_islower c = true ->
  leading_isupper (upper c ++ tl) = true.
Proof.
  unfold leading_isupper. cbn [upper ascii_tables]. unfold ascii_upper.
  intros [Hup | Hlow].
  - assert (ascii_islower c = false) as ->.
    { unfold ascii_isupper, ascii_islower, between in *.
      apply andb_true_iff in Hup as [H1 H2].
      apply N.leb_le in H1. apply N.leb_le in H2.
      apply andb_false_iff. left. apply N.leb_gt. lia. }
    simpl. exact Hup.
  - rewrite Hlow. simpl. unfold ascii_isupper, ascii_islower, between in *.
    apply andb_true_iff in Hlow as [H1 H2].
    apply N.leb_le in H1. apply N.leb_le in H2.
    apply andb_true_iff. split; apply N.leb_le; lia.
Qed.

(** The relaxed pass runs only on a chunk that holds a structural hint:
    without one, the matcher returns what the strict pass returns, or
    [None]. *)
Lemma relaxed_pass_needs_hint `{Unicode} (text last_name : str) :
  existsb (fun hint => str_in hint (lower_str text)) STRUCTURED_HINTS = false ->
  _find_name_in_text text last_name = Ret None \/
  _find_name_in_text text last_name
  = _extract_from_pattern
      (_build_name_pattern (_normalize_last_name last_name)) text true.
Proof.
  intros Hnohint. unfold _find_name_in_text.
  destruct (negb (truthy text) || negb (truthy last_name)); [by left |].
  cbv zeta.
  destruct (negb (truthy (_normalize_last_name last_name))); [by left |].
  destruct (negb (str_in _ _)); [by left |].
  destruct (_extract_from_pattern _ text true) as [first | e]; [| by right].
  destruct (truthy_opt first); [by right |].
  rewrite Hnohint. by left.
Qed.

(** C1, on the code.  For the chunk ["this is jane smith's course"] and
    the last name ["Smith"] the name pattern has one match, whose capture
    is ["this"] (["is jane"] is read as middle tokens); cleanup turns it
    into ["This"] before the capitalization check, so the strict pass
    accepts it and the matcher returns ["This"] although the chunk holds
    no structural hint.  On ["jane smith's course"] the strict pass
    returns ["Jane"] in the same way.  The strict pass does not tell a
    lower-case leading letter from an upper-case one. *)
Theorem strict_pass_accepts_lowercase_capture :
  let pattern := _build_name_pattern (cp "Smith") in
  let chunk := cp "this is jane smith's course" in
  finditer pattern chunk = [Some (cp "this")] /\
  _extract_from_pattern pattern chunk true = Ret (Some (cp "This")) /\
  existsb (fun hint => str_in hint (lower_str chunk)) STRUCTURED_HINTS
    = false /\
  _find_name_in_text chunk (cp "Smith") = Ret (Some (cp "This")) /\
  _extract_from_pattern pattern (cp "jane smith's course") true
    = Ret (Some (cp "Jane")) /\
  _find_name_in_text (cp "jane smith's course") (cp "Smith")
    = Ret (Some (cp "Jane")).
Proof. vm_compute. repeat split. Qed.

(** C2, on the code.  Normalization turns ["Smith (she/her)"] into
    ["Smith"].  In ["Dr. Jane Smith"] the one match of the name pattern
    starts at ["Dr"] and reads ["Jane"] as a middle token; its capture
    ["Dr"] is rejected, the matches do not overlap, so no match is left
    for ["Jane"], the chunk holds no structural hint, and the matcher
    returns [None]. *)
Theorem honorific_match_swallows_first_name :
  _normalize_last_name (cp "Smith (she/her)") = cp "Smith" /\
  finditer (_build_name_pattern (cp "Smith")) (cp "Dr. Jane Smith")
    = [Some (cp "Dr")] /\
  _extract_from_pattern (_build_name_pattern (cp "Smith"))
    (cp "Dr. Jane Smith") true = Ret None /\
  _find_name_in_text (cp "Dr. Jane Smith") (cp "Smith (she/her)")
    = Ret None /\
  _find_name_in_text (cp "Jane Smith") (cp "Smith (she/her)")
    = Ret (Some (cp "Jane")).
Proof. vm_compute. repeat split. Qed.

(** The other examples of the specification. *)
Example honorific_alone_is_rejected :
  _find_name_in_text (cp "Professor Smith discusses") (cp "Smith") = Ret None.
Proof. vm_compute. reflexivity. Qed.

Example end_to_end_chunk :
  _find_name_in_text
    (cp "Course Feedback for ECON 101 - Instructor: Maria Garcia-Lopez")
    (cp "Garcia-Lopez") = Ret (Some (cp "Maria")).
Proof. vm_compute. reflexivity. Qed.

Example cleanup_examples :
  _clean_candidate (cp "Jane2") = Ret None /\
  _clean_candidate (cp "J") = Ret (Some (cp "J")) /\
  _clean_candidate (cp "j") = Ret (Some (cp "J")) /\
  _clean_candidate (cp "mcKay") = Ret (Some (cp "McKay")) /\
  _clean_candidate (cp "...") = Raise IndexError.
Proof. vm_compute. repeat split. Qed.

(* ===================================================================== *)
(** ** The candidate selector *)
(* ===================================================================== *)







Section SelectorFacts.
Context `{Unicode}.
Context (BeautifulSoup : str -> soup).



End SelectorFacts.


(** A small parsed page: a title, two headings and one text node. *)
Definition sample_page (html : str) : soup :=
  {| select := fun selector =>
       if str_eqb selector (cp "title") then [cp "Course Feedback"]
       else if str_eqb selector (cp "h1")
            then [cp "Course Feedback"; cp "ECON 101"]
            else [];
     strings :=
       [TextNode (cp "Instructor: Maria Garcia-Lopez")
          (Some (cp "Instructor: Maria Garcia-Lopez"))];
     stripped_strings :=
       [cp "Course Feedback"; cp "ECON 101";
        cp "Instructor: Maria Garcia-Lopez"] |}.


(** The keyword patterns ignore case; [Course\s*Head] allows any amount of
    whitespace, none included, and [Primary\s+Instructor] needs some (here
    a newline and a tab). *)
Example keyword_patterns_tolerate_whitespace :
  map (fun text => map (fun pattern => search pattern text) KEYWORD_PATTERNS)
    [cp "INSTRUCTORS"; cp "course   head"; cp "CourseHead";
     cp "primary" ++ [10; 9]%N ++ cp "instructor"; cp "PrimaryInstructor";
     cp "Guest lecturer"; cp "Syllabus"]
  = [[true; true; false; false; false];
     [false; false; true; false; false];
     [false; false; true; false; false];
     [true; false; false; true; false];
     [true; false; false; false; false];
     [false; false; false; false; true];
     [false; false; false; false; false]].
Proof. vm_compute. reflexivity. Qed.

(* ===================================================================== *)
(** ** Resolution and its cache *)
(* ===================================================================== *)


Section ResolverFacts.
Context `{Unicode}.
Context (BeautifulSoup : str -> soup).
Context (net : str -> nat -> response).
Context (self : resolver).

Lemma first_in_chunks_total chunks last_name :
  exists o,
    first_in_chunks chunks last_name = Ret o /\
    forall first, o = Some first -> truthy first = true.
Proof.
  induction chunks as [| chunk later IH]; simpl.
  - exists None. split; [done | intros first [=]].
  - destruct (_find_name_in_text_total chunk last_name) as (o & -> & Ho).
    destruct (truthy_opt o) eqn:Htruthy; [| exact IH].
    exists o. split; [done |]. intros first ->. by apply Ho.
Qed.

(** Extraction never raises, and a name it returns is not empty. *)
Lemma _extract_first_name_total html last_name :
  exists o,
    _extract_first_name BeautifulSoup html last_name = Ret o /\
    forall first, o = Some first -> truthy first = true.
Proof.
  unfold _extract_first_name.
  destruct (negb (truthy last_name));
    [exists None; split; [done | intros first [=]] |].
  cbv zeta.
  destruct (first_in_chunks_total
              (_candidate_text_chunks (BeautifulSoup html)) last_name)
    as (o & -> & Ho).
  destruct o as [first |].
  - exists (Some first). split; [done | exact Ho].
  - destruct (_find_name_in_text_total
                (fallback_text (BeautifulSoup html)) last_name)
      as (o & -> & Ho').
    exists o. split; [done |]. intros first ->. by apply Ho'.
Qed.

(** A call with a URL that strips to nothing. *)
Lemma resolve_empty url last_name w :
  truthy (strip url) = false ->
  resolve BeautifulSoup net self url last_name w = (Ret None, w).
Proof. intros Hu. unfold resolve. by rewrite Hu. Qed.

(** A cache hit. *)
Lemma resolve_hit url last_name w value :
  truthy (strip url) = true ->
  link_cache w !! strip url = Some value ->
  resolve BeautifulSoup net self url last_name w = (Ret value, w).
Proof.
  intros Hu Hhit. unfold resolve. rewrite Hu. cbn [negb].
  unfold bind, cache_get. by rewrite Hhit.
Qed.

(** The value a cache miss resolves to. *)
Definition miss_value (url last_name : str) (w : world)
    : outcome (option str) :=
  if negb (truthy (cookie_header self)) then Ret None
  else
    match (_fetch net self url w).1 with
    | Ret html =>
        if truthy_opt html
        then _extract_first_name BeautifulSoup (default [] html) last_name
        else Ret None
    | Raise e => Raise e
    end.

(** A cache miss: the call returns a value, stores it under the stripped
    URL, and sends the requests of at most one fetch. *)
Lemma resolve_miss url last_name w :
  truthy (strip url) = true ->
  link_cache w !! strip url = None ->
  exists value w',
    resolve BeautifulSoup net self url last_name w = (Ret value, w') /\
    miss_value (strip url) last_name w = Ret value /\
    link_cache w' = <[strip url := value]> (link_cache w) /\
    (requests w' = requests w \/
     requests w' = requests (_fetch net self (strip url) w).2).
Proof.
  intros Hu Hmiss. unfold resolve, miss_value. rewrite Hu. cbn [negb].
  unfold bind at 1. unfold cache_get. rewrite Hmiss.
  destruct (truthy (cookie_header self)); cbn [negb].
  - destruct (_fetch_run net self (strip url) w)
      as (Hres & _ & Hcache & _ & _ & _).
    unfold bind at 1.
    destruct (_fetch net self (strip url) w) as [r w1]. simpl in Hres, Hcache.
    subst r. cbn [fst snd].
    set (html := loop_result net (strip url) _ _).
    destruct (truthy_opt html); cbn [negb].
    + destruct (_extract_first_name_total (default [] html) last_name)
        as (o & Hext & _).
      rewrite Hext. unfold bind, lift, cache_set, ret.
      destruct (truthy_opt o); unfold logging, emit; simpl;
        exists o; eexists; (split; [reflexivity |]);
        rewrite Hcache; simpl; auto.
    + unfold bind, cache_set, ret. simpl.
      exists None. eexists. split; [reflexivity |].
      rewrite Hcache. simpl. auto.
  - unfold bind, logging, emit, cache_set, ret. simpl.
    exists None. eexists. split; [reflexivity |]. simpl. auto.
Qed.


(** Further calls, one after the other. *)
Fixpoint resolve_all (calls : list (str * str)) (w : world) : world :=
  match calls with
  | [] => w
  | (url, last_name) :: later =>
      resolve_all later (resolve BeautifulSoup net self url last_name w).2
  end.


(** After a call, the value it returned is what a call for the same URL
    returns, without any effect. *)
Lemma resolve_then_cached url last_name w :
  exists value,
    (resolve BeautifulSoup net self url last_name w).1 = Ret value /\
    (truthy (strip url) = true ->
     link_cache (resolve BeautifulSoup net self url last_name w).2
       !! strip url = Some value) /\
    (truthy (strip url) = false -> value = None).
Proof.
  destruct (truthy (strip url)) eqn:Hu.
  - destruct (link_cache w !! strip url) as [cached |] eqn:Hlook.
    + rewrite (resolve_hit url last_name w cached) by done.
      exists cached. by repeat split.
    + destruct (resolve_miss url last_name w Hu Hlook)
        as (v & w' & -> & _ & Hcache & _).
      exists v. repeat split; [| done]. intros _. cbn [snd].
      by rewrite Hcache, lookup_insert_eq.
  - rewrite resolve_empty by done. exists None. by repeat split.
Qed.

(** A name without period, underscore or digit. *)
Definition plain_name (first : str) : Prop :=
  forall d, In d first -> d <> 46%N /\ d <> 95%N /\ isdigit d = false.

Lemma _find_name_in_text_plain text last_name first :
  _find_name_in_text text last_name = Ret (Some first) -> plain_name first.
Proof.
  intros Hfound.
  destruct (_find_name_in_text_total text last_name) as (o & Hrun & Ho).
  rewrite Hrun in Hfound. injection Hfound as ->.
  destruct (Ho first eq_refl) as [_ Hclean].
  intros d. by eapply cleaned_from_plain.
Qed.

Lemma first_in_chunks_from_chunk chunks last_name first :
  first_in_chunks chunks last_name = Ret (Some first) ->
  exists chunk,
    In chunk chunks /\ _find_name_in_text chunk last_name = Ret (Some first).
Proof.
  induction chunks as [| chunk later IH]; simpl; [done |].
  destruct (_find_name_in_text chunk last_name) as [o | e] eqn:Hchunk;
    [| done].
  destruct (truthy_opt o).
  - intros [= ->]. exists chunk. split; [by left | done].
  - intros Hlater. destruct (IH Hlater) as (c & Hin & Hc).
    exists c. split; [by right | done].
Qed.

Lemma _extract_first_name_plain html last_name first :
  _extract_first_name BeautifulSoup html last_name = Ret (Some first) ->
  plain_name first.
Proof.
  unfold _extract_first_name.
  destruct (negb (truthy last_name)); [done |]. cbv zeta.
  destruct (first_in_chunks _ last_name) as [[found |] | e] eqn:Hloop;
    [| | done].
  - intros [= ->].
    apply first_in_chunks_from_chunk in Hloop as (chunk & _ & Hchunk).
    by eapply _find_name_in_text_plain.
  - apply _find_name_in_text_plain.
Qed.

(** The names in the cache are plain. *)
Definition plain_cache (w : world) : Prop :=
  forall key first, link_cache w !! key = Some (Some first) -> plain_name first.

Lemma resolve_plain url last_name w :
  plain_cache w ->
  plain_cache (resolve BeautifulSoup net self url last_name w).2 /\
  forall first,
    (resolve BeautifulSoup net self url last_name w).1 = Ret (Some first) ->
    plain_name first.
Proof.
  intros Hw. destruct (truthy (strip url)) eqn:Hu.
  - destruct (link_cache w !! strip url) as [cached |] eqn:Hlook.
    + rewrite (resolve_hit url last_name w cached) by done.
      split; [done |]. intros first [= ->]. by eapply Hw.
    + destruct (resolve_miss url last_name w Hu Hlook)
        as (v & w' & -> & Hvalue & Hcache & _).
      cbn [fst snd].
      assert (Hv : forall first, v = Some first -> plain_name first).
      { intros first ->. unfold miss_value in Hvalue.
        destruct (negb (truthy (cookie_header self))); [done |].
        destruct ((_fetch net self (strip url) w).1) as [html | e]; [| done].
        destruct (truthy_opt html); [| done].
        by eapply _extract_first_name_plain. }
      split.
      * intros key first. rewrite Hcache.
        destruct (decide (strip url = key)) as [<- | Hne].
        -- rewrite lookup_insert_eq. intros [= ->]. by apply Hv.
        -- rewrite lookup_insert_ne by done. apply Hw.
      * intros first [= ->]. by apply Hv.
  - rewrite resolve_empty by done. split; [done | intros first [=]].
Qed.

Lemma resolve_all_plain calls w :
  plain_cache w -> plain_cache (resolve_all calls w).
Proof.
  revert w. induction calls as [| [url last_name] later IH]; intros w Hw.
  - done.
  - simpl. apply IH. by apply resolve_plain.
Qed.
End ResolverFacts.

(** C9.  A first name returned by [_extract_from_pattern] on the name
    pattern, in the strict pass as in the relaxed pass, and so a first
    name returned by the name matcher, holds no period (46), no
    underscore (95) and no digit, and it is a capture of the name pattern
    with its first character put in upper case by cleanup and the
    characters after it kept as they are.  Hence a first name returned by
    [resolve], in a run that started with an empty cache, holds no
    period, no underscore and no digit. *)
Theorem matched_first_name_is_clean `{Unicode}
    (BeautifulSoup : str -> soup) (net : str -> nat -> response)
    (self : resolver) :
  (forall last_name text require_capitalized first,
     _extract_from_pattern (_build_name_pattern last_name) text
       require_capitalized = Ret (Some first) ->
     (forall d, In d first -> d <> 46%N /\ d <> 95%N /\ isdigit d = false) /\
     exists c tl,
       In (Some (c :: tl)) (finditer (_build_name_pattern last_name) text) /\
       first = upper c ++ tl) /\
  (forall text last_name first,
     _find_name_in_text text last_name = Ret (Some first) ->
     (forall d, In d first -> d <> 46%N /\ d <> 95%N /\ isdigit d = false) /\
     exists c tl,
       In (Some (c :: tl))
         (finditer
            (_build_name_pattern (_normalize_last_name last_name)) text) /\
       first = upper c ++ tl) /\
  (forall calls url last_name first,
     (resolve BeautifulSoup net self url last_name
        (resolve_all BeautifulSoup net self calls fresh_world)).1
     = Ret (Some first) ->
     forall d, In d first -> d <> 46%N /\ d <> 95%N /\ isdigit d = false).
Proof.
  split; [| split].
  - intros last_name text require_capitalized first Hfound.
    destruct (_extract_from_pattern_tokens last_name text
                require_capitalized) as (o & Hrun & Ho).
    rewrite Hrun in Hfound. injection Hfound as ->.
    destruct (Ho first eq_refl) as [_ Hclean]. split.
    + intros d. by eapply cleaned_from_plain.
    + destruct Hclean as (c & tl & Hin & _ & _ & ->). by exists c, tl.
  - intros text last_name first Hfound.
    destruct (_find_name_in_text_total text last_name) as (o & Hrun & Ho).
    rewrite Hrun in Hfound. injection Hfound as ->.
    destruct (Ho first eq_refl) as [_ Hclean]. split.
    + intros d. by eapply cleaned_from_plain.
    + destruct Hclean as (c & tl & Hin & _ & _ & ->). by exists c, tl.
  - intros calls url last_name first Hresolved.
    eapply resolve_plain; [| exact Hresolved].
    apply resolve_all_plain. intros key name Hkey.
    unfold fresh_world in Hkey. simpl in Hkey.
    by rewrite lookup_empty in Hkey.
Qed.


Lemma matched_first_name_is_clean_witness :
  (forall d, In d (cp "Maria") ->
     d <> 46%N /\ d <> 95%N /\ isdigit d = false) /\
  exists c tl,
    In (Some (c :: tl))
      (finditer
         (_build_name_pattern (_normalize_last_name (cp "Garcia-Lopez")))
         (cp "Instructor: maria Garcia-Lopez")) /\
    cp "Maria" = upper c ++ tl.
Proof.
  destruct (matched_first_name_is_clean sample_page
              (fun _ _ => RequestException)
              (new_resolver None 0 1)) as (_ & Hmatcher & _).
  apply (Hmatcher (cp "Instructor: maria Garcia-Lopez")
           (cp "Garcia-Lopez") (cp "Maria")).
  vm_compute. reflexivity.
Defined.





(** Resolution on a page, twice, with another last name the second
    time: one request in all. *)
Example resolve_twice_example :
  let net := fun (_ : str) (_ : nat) => Response 200 (cp "<html>") in
  let self := new_resolver (Some (cp "session=1")) 0 3 in
  let first_call :=
    resolve sample_page net self (cp " https://q/1 ") (cp "Garcia-Lopez")
      fresh_world in
  let second_call :=
    resolve sample_page net self (cp "https://q/1") (cp "Smith")
      first_call.2 in
  first_call.1 = Ret (Some (cp "Maria")) /\
  second_call.1 = Ret (Some (cp "Maria")) /\
  requests first_call.2 = 1 /\
  requests second_call.2 = 1 /\
  second_call.2 = first_call.2.
Proof. vm_compute. repeat split. Qed.

(* ===================================================================== *)
(** * Further properties of the code *)
(* ===================================================================== *)

(* ===================================================================== *)
(** ** The fetcher: waits, requests and what a fetch returns *)
(* ===================================================================== *)

Lemma new_resolver_delay_nonneg cookie d mr :
  (0 <= delay (new_resolver cookie d mr))%Q.
Proof.
  unfold new_resolver. simpl. destruct (Qle_bool 0 d) eqn:Hd.
  - by apply Qle_bool_iff.
  - apply Qle_refl.
Qed.

Lemma power_of_two_nonneg (z : Z) : (0 <= inject_Z (2 ^ z))%Q.
Proof.
  change 0%Q with (inject_Z 0). rewrite <- Zle_Qle.
  apply Z.pow_nonneg. lia.
Qed.

Lemma power_of_two_double (n : nat) :
  1 <= n ->
  (inject_Z (2 ^ (Z.of_nat (S n) - 1)) == 2 * inject_Z (2 ^ (Z.of_nat n - 1)))%Q.
Proof.
  intros Hn.
  replace (Z.of_nat (S n) - 1)%Z with (Z.succ (Z.of_nat n - 1)) by lia.
  rewrite Z.pow_succ_r by lia. by rewrite inject_Z_mult.
Qed.

(** The wait of [_sleep_backoff], for a resolver built by [__init__]: it
    is never negative and never more than ten seconds, and from one
    attempt to the next it doubles until the cap of ten seconds is
    reached. *)
Theorem backoff_wait_doubles_up_to_cap
    (cookie : option str) (d : Q) (mr : Z) (n : nat) :
  1 <= n ->
  let self := new_resolver cookie d mr in
  (0 <= backoff_wait (delay self) n)%Q /\
  (backoff_wait (delay self) n <= 10)%Q /\
  (backoff_wait (delay self) (S n)
   == Qmin (2 * backoff_wait (delay self) n) 10)%Q /\
  (backoff_wait (delay self) n <= backoff_wait (delay self) (S n))%Q.
Proof.
  intros Hn self.
  pose proof (new_resolver_delay_nonneg cookie d mr) as Hd. fold self in Hd.
  unfold backoff_wait.
  pose proof (power_of_two_nonneg (Z.of_nat n - 1)) as Hp.
  pose proof (power_of_two_double n Hn) as Hdouble.
  set (p := inject_Z (2 ^ (Z.of_nat n - 1))) in *.
  set (p' := inject_Z (2 ^ (Z.of_nat (S n) - 1))) in *.
  set (x := delay self) in *.
  assert (Hx : (0 <= x * p)%Q) by by apply Qmult_le_0_compat.
  assert (Hx' : (x * p' == 2 * (x * p))%Q) by (rewrite Hdouble; ring).
  pose proof (Q.min_spec (x * p) 10) as S1.
  pose proof (Q.min_spec (x * p') 10) as S2.
  pose proof (Q.min_spec (2 * Qmin (x * p) 10) 10) as S3.
  set (m := Qmin (x * p) 10) in *.
  set (m' := Qmin (x * p') 10) in *.
  set (m2 := Qmin (2 * m) 10) in *.
  clearbody m m' m2. set (y := (x * p)%Q) in *. set (y' := (x * p')%Q) in *.
  clearbody y y'.
  destruct S1 as [[H1 E1] | [H1 E1]], S2 as [[H2 E2] | [H2 E2]],
    S3 as [[H3 E3] | [H3 E3]]; split_and!; lra.
Qed.

Lemma backoff_wait_doubles_up_to_cap_witness :
  let self := new_resolver None (3 # 1) 5 in
  (0 <= backoff_wait (delay self) 2)%Q /\
  (backoff_wait (delay self) 2 <= 10)%Q /\
  (backoff_wait (delay self) 3
   == Qmin (2 * backoff_wait (delay self) 2) 10)%Q /\
  (backoff_wait (delay self) 2 <= backoff_wait (delay self) 3)%Q.
Proof. apply (backoff_wait_doubles_up_to_cap None (3 # 1) 5 2). lia. Defined.

Section FetchBounds.
Context (net : str -> nat -> response).
Context (self : resolver).


Lemma rounds_length_pos url a later k :
  1 <= length (rounds net self url (a :: later) k).
Proof. simpl. lia. Qed.

(** A loop that returns a text stopped at an attempt answered 200 with
    that text, no login marker in it, after retryable failures only. *)
Lemma loop_result_some url attempts k text :
  loop_result net url attempts k = Some text ->
  exists n,
    n < length attempts /\
    (forall i, i < n -> retryable (net url (k + i)) = true) /\
    retryable (net url (k + n)) = false /\
    net url (k + n) = Response 200 text /\
    login_marker text = false.
Proof.
  revert k. induction attempts as [| a later IH]; intros k; simpl; [done |].
  destruct (retryable (net url k)) eqn:Hk.
  - intros Hlater. apply IH in Hlater as (n & Hn & Hbefore & Hstop & Hresp & Hm).
    exists (S n). replace (k + S n) with (S k + n) by lia.
    split_and!; [lia | | done | done | done].
    intros [| i] Hi; [by rewrite Nat.add_0_r |].
    replace (k + S i) with (S k + i) by lia. apply Hbefore. lia.
  - intros Hres. exists 0. rewrite Nat.add_0_r.
    destruct (net url k) as [| status_code body]; [done |].
    simpl in Hres.
    destruct (status_code =? 200)%Z eqn:H200; [| done].
    fold (login_marker body) in Hres.
    destruct (login_marker body) eqn:Hmarker; [done |].
    injection Hres as ->. apply Z.eqb_eq in H200 as ->.
    split_and!; [simpl; lia | intros i Hi; lia | done | done | done].
Qed.

Lemma sleeps_with_gets url rs :
  Forall (fun r => sleeps r = []) rs -> sleeps (with_gets url rs) = [].
Proof.
  induction 1 as [| r rs Hr _ IH]; [done |].
  unfold with_gets in *. cbn [map concat].
  change (EvGet url :: r) with ([EvGet url] ++ r).
  by rewrite !sleeps_app, IH, Hr.
Qed.
End FetchBounds.


(** When a fetch returns a text, the text is the body of the last
    response it received, that response had status 200 and its body held
    neither login marker, and every request before it failed in a way
    that is retried. *)
Theorem fetched_text_is_a_200_body_without_login_marker
    (net : str -> nat -> response) (self : resolver) (url : str) (w : world)
    (text : str) :
  (_fetch net self url w).1 = Ret (Some text) ->
  exists n,
    n < max_retries self /\
    requests (_fetch net self url w).2 = requests w + S n /\
    net url (requests w + n) = Response 200 text /\
    (forall i, i < n -> retryable (net url (requests w + i)) = true) /\
    ~ (exists a b, text = a ++ cp "HarvardKey - Sign In" ++ b) /\
    ~ (exists a b, text = a ++ cp "login-form" ++ b).
Proof.
  intros Hrun.
  destruct (_fetch_run net self url w) as (Hres & Hreq & _).
  rewrite Hres in Hrun. injection Hrun as Hloop.
  apply loop_result_some in Hloop as (n & Hn & Hbefore & Hstop & Hresp & Hm).
  rewrite length_seq in Hn.
  destruct (rounds_stop net self url (seq 1 (max_retries self)) (requests w) n)
    as [Hlen _]; [by rewrite length_seq | done | done |].
  exists n. split_and!; [done | by rewrite Hreq, Hlen | done | done | |].
  - intros Hin. apply str_in_spec in Hin.
    unfold login_marker in Hm. by rewrite Hin in Hm.
  - intros Hin. apply str_in_spec in Hin.
    unfold login_marker in Hm. rewrite Hin in Hm.
    by rewrite orb_true_r in Hm.
Qed.

Lemma fetched_text_is_a_200_body_without_login_marker_witness :
  let net := fun (_ : str) (k : nat) =>
               match k with
               | O => Response 503 []
               | _ => Response 200 (cp "<html>report</html>")
               end in
  let self := new_resolver (Some (cp "session=1")) (1 # 2) 3 in
  exists n,
    n < max_retries self /\
    requests (_fetch net self (cp "u") fresh_world).2
    = requests fresh_world + S n /\
    net (cp "u") (requests fresh_world + n)
    = Response 200 (cp "<html>report</html>") /\
    (forall i, i < n ->
       retryable (net (cp "u") (requests fresh_world + i)) = true) /\
    ~ (exists a b,
         cp "<html>report</html>" = a ++ cp "HarvardKey - Sign In" ++ b) /\
    ~ (exists a b, cp "<html>report</html>" = a ++ cp "login-form" ++ b).
Proof.
  apply (fetched_text_is_a_200_body_without_login_marker
           (fun _ k => match k with
                       | O => Response 503 []
                       | _ => Response 200 (cp "<html>report</html>")
                       end)
           (new_resolver (Some (cp "session=1")) (1 # 2) 3) (cp "u")
           fresh_world (cp "<html>report</html>")).
  reflexivity.
Defined.

(** With a delay that is zero or negative, a resolver built by [__init__]
    never sleeps during a fetch: neither the pause after a response nor
    the backoff calls [time.sleep]. *)
Theorem fetch_without_delay_never_sleeps
    (net : str -> nat -> response) (cookie : option str) (d : Q) (mr : Z)
    (url : str) (w : world) :
  (d <= 0)%Q ->
  let self := new_resolver cookie d mr in
  sleeps (events_since w (_fetch net self url w).2) = [].
Proof.
  intros Hd self.
  assert (Hzero : (delay self == 0)%Q).
  { unfold self, new_resolver. simpl. destruct (Qle_bool 0 d) eqn:Hpos.
    - apply Qle_bool_iff in Hpos. by apply Qle_antisym.
    - reflexivity. }
  assert (Hpacing : Qnonzero (delay self) = false).
  { unfold Qnonzero. apply negb_false_iff. by apply Qeq_bool_iff. }
  assert (Hbackoff : forall attempt,
            Qpositive (backoff_wait (delay self) attempt) = false).
  { intros attempt. unfold Qpositive. apply negb_false_iff.
    apply Qle_bool_iff. unfold backoff_wait.
    eapply Qle_trans; [apply Q.le_min_l |]. rewrite Hzero. lra. }
  destruct (_fetch_run net self url w) as (_ & _ & _ & _ & Hev & _).
  rewrite Hev. apply sleeps_with_gets. apply Forall_lookup.
  intros j seg Hj. apply rounds_lookup in Hj as (attempt & _ & -> & _).
  destruct (net url (requests w + j)) as [| status_code text];
    cbn [attempt_events]; unfold pacing_events, backoff_events;
    rewrite ?Hpacing, ?Hbackoff.
  - reflexivity.
  - by destruct (status_code =? 200)%Z, (auth_status status_code),
      (login_marker text).
Qed.

Lemma fetch_without_delay_never_sleeps_witness :
  let net := fun (_ : str) (_ : nat) => RequestException in
  let self := new_resolver (Some (cp "session=1")) (- (1 # 2)) 4 in
  sleeps (events_since fresh_world (_fetch net self (cp "u") fresh_world).2)
  = [].
Proof.
  apply (fetch_without_delay_never_sleeps (fun _ _ => RequestException)
           (Some (cp "session=1")) (- (1 # 2)) 4 (cp "u") fresh_world).
  vm_compute. discriminate.
Defined.

(* ===================================================================== *)
(** ** The resolver: URLs, the cookie and the requests of a run *)
(* ===================================================================== *)

Section StripFacts.
Context `{Unicode}.

Lemma lstrip_snoc l c :
  isspace c = false ->
  exists l' x r,
    lstrip (l ++ [c]) = l' ++ [c] /\
    lstrip (l ++ [c]) = x :: r /\ isspace x = false.
Proof.
  intros Hc. induction l as [| y l IH]; simpl.
  - rewrite Hc. by exists [], c, [].
  - destruct (isspace y) eqn:Hy; [exact IH |].
    by exists (y :: l), y, (l ++ [c]).
Qed.

Lemma lstrip_shape s :
  lstrip s = [] \/ exists c tl, lstrip s = c :: tl /\ isspace c = false.
Proof.
  induction s as [| y s IH]; simpl; [by left |].
  destruct (isspace y) eqn:Hy; [exact IH |]. right. by exists y, s.
Qed.

(** What [strip] returns is empty, or begins and ends with a character
    that is not whitespace. *)
Lemma strip_shape s :
  strip s = [] \/
  (exists c tl, strip s = c :: tl /\ isspace c = false) /\
  (exists s0 d, strip s = s0 ++ [d] /\ isspace d = false).
Proof.
  unfold strip, rstrip.
  destruct (lstrip_shape s) as [-> | (c & tl & -> & Hc)]; [by left |].
  right. simpl rev.
  destruct (lstrip_snoc (rev tl) c Hc) as (l' & x & r & E1 & E2 & Hx).
  split.
  - exists c, (rev l'). split; [| done]. by rewrite E1, rev_unit.
  - exists (rev r), x. split; [| done]. by rewrite E2.
Qed.

Lemma strip_keeps s :
  (exists c tl, s = c :: tl /\ isspace c = false) ->
  (exists s0 d, s = s0 ++ [d] /\ isspace d = false) ->
  strip s = s.
Proof.
  intros (c & tl & -> & Hc) (s0 & d & E & Hd).
  unfold strip, rstrip. rewrite lstrip_keeps by done.
  rewrite E, rev_unit, lstrip_keeps by done.
  by rewrite <- rev_unit, rev_involutive.
Qed.

Lemma strip_idempotent s : strip (strip s) = strip s.
Proof.
  destruct (strip_shape s) as [-> | [Hfirst Hlast]]; [done |].
  by apply strip_keeps.
Qed.
End StripFacts.

Section ResolverBounds.
Context `{Unicode}.
Context (BeautifulSoup : str -> soup).
Context (net : str -> nat -> response).
Context (self : resolver).

(** A cache miss without a cookie: nothing is sent. *)
Lemma resolve_no_cookie url last_name w :
  truthy (cookie_header self) = false ->
  truthy (strip url) = true ->
  link_cache w !! strip url = None ->
  resolve BeautifulSoup net self url last_name w
  = (Ret None,
     World (<[strip url := None]> (link_cache w)) (requests w)
       (trace w ++ [EvLog (DebugNoCookie (strip url))])).
Proof.
  intros Hcookie Hu Hmiss. unfold resolve. rewrite Hu. cbn [negb].
  unfold bind at 1. unfold cache_get. rewrite Hmiss, Hcookie.
  reflexivity.
Qed.



(** Without a cookie, every world a run reaches has sent nothing and has
    cached no name. *)
Definition nothing_sent (w : world) : Prop :=
  requests w = 0 /\
  Forall (fun e => is_get e = false) (trace w) /\
  forall key value, link_cache w !! key = Some value -> value = None.

Lemma resolve_nothing_sent url last_name w :
  truthy (cookie_header self) = false ->
  nothing_sent w ->
  (resolve BeautifulSoup net self url last_name w).1 = Ret None /\
  nothing_sent (resolve BeautifulSoup net self url last_name w).2.
Proof.
  intros Hcookie (Hreq & Htrace & Hcache).
  destruct (truthy (strip url)) eqn:Hu.
  - destruct (link_cache w !! strip url) as [cached |] eqn:Hlook.
    + rewrite (resolve_hit _ _ _ url last_name w cached) by done.
      rewrite (Hcache _ _ Hlook). by split.
    + rewrite resolve_no_cookie by done. split; [done |].
      split_and!; simpl; [done | |].
      * apply Forall_app. split; [done |]. by repeat constructor.
      * intros key value. destruct (decide (strip url = key)) as [<- | Hne].
        -- rewrite lookup_insert_eq. by intros [= <-].
        -- rewrite lookup_insert_ne by done. apply Hcache.
  - rewrite resolve_empty by done. by split.
Qed.

Lemma resolve_all_nothing_sent calls w :
  truthy (cookie_header self) = false ->
  nothing_sent w -> nothing_sent (resolve_all BeautifulSoup net self calls w).
Proof.
  intros Hcookie. revert w.
  induction calls as [| [url last_name] later IH]; intros w Hw; [done |].
  simpl. apply IH. by apply resolve_nothing_sent.
Qed.
End ResolverBounds.

(** [resolve] uses the URL only stripped: a URL and the same URL without
    the whitespace around it are one cache key, and the two calls do the
    same. *)
Theorem resolve_ignores_whitespace_around_url `{Unicode}
    (BeautifulSoup : str -> soup) (net : str -> nat -> response)
    (self : resolver) (url last_name : str) (w : world) :
  resolve BeautifulSoup net self url last_name w
  = resolve BeautifulSoup net self (strip url) last_name w.
Proof. unfold resolve. by rewrite strip_idempotent. Qed.


(** Without a cookie, no call of a run that starts with an empty cache
    sends a request, and every call returns [None]. *)
Theorem resolve_without_cookie_sends_nothing `{Unicode}
    (BeautifulSoup : str -> soup) (net : str -> nat -> response)
    (self : resolver) (calls : list (str * str)) (url last_name : str) :
  truthy (cookie_header self) = false ->
  let w := resolve_all BeautifulSoup net self calls fresh_world in
  let run := resolve BeautifulSoup net self url last_name w in
  run.1 = Ret None /\
  requests run.2 = 0 /\
  Forall (fun e => is_get e = false) (trace run.2).
Proof.
  intros Hcookie w run.
  assert (Hw : nothing_sent w).
  { apply resolve_all_nothing_sent; [done |].
    split_and!; [done | constructor |].
    intros key value Hkey. simpl in Hkey. by rewrite lookup_empty in Hkey. }
  destruct (resolve_nothing_sent BeautifulSoup net self url last_name w
              Hcookie Hw) as (Hres & Hreq & Htrace & _).
  by split_and!.
Qed.

Lemma resolve_without_cookie_sends_nothing_witness :
  let net := fun (_ : str) (_ : nat) => Response 200 (cp "<html>") in
  let self := new_resolver None (1 # 2) 3 in
  let w :=
    resolve_all sample_page net self [(cp "https://q/1", cp "Smith")]
      fresh_world in
  let run :=
    resolve sample_page net self (cp "https://q/2") (cp "Garcia-Lopez") w in
  run.1 = Ret None /\
  requests run.2 = 0 /\
  Forall (fun e => is_get e = false) (trace run.2).
Proof.
  apply (resolve_without_cookie_sends_nothing sample_page
           (fun _ _ => Response 200 (cp "<html>"))
           (new_resolver None (1 # 2) 3)
           [(cp "https://q/1", cp "Smith")]
           (cp "https://q/2") (cp "Garcia-Lopez")).
  reflexivity.
Defined.

(* ===================================================================== *)
(** ** The name matcher: errors, rejections and where a name comes from *)
(* ===================================================================== *)

Lemma remove_char_nil c s :
  remove_char c s = [] <-> Forall (fun d => d = c) s.
Proof.
  induction s as [| d s IH]; simpl; [done |].
  destruct (N.eqb_spec d c) as [-> | Hne].
  - rewrite IH. split; [by constructor | by inversion 1].
  - split; [done | inversion 1; congruence].
Qed.

(** [_clean_candidate] raises, the [IndexError] of [candidate[0]], exactly
    on a candidate that is made of periods and nothing else once it is
    stripped; on any other candidate it returns. *)
Theorem clean_candidate_raises_on_periods_only `{Unicode} (candidate : str) :
  _clean_candidate candidate = Raise IndexError <->
  strip candidate <> [] /\ Forall (fun c => c = 46%N) (strip candidate).
Proof.
  unfold _clean_candidate.
  destruct (strip candidate) as [| c tl] eqn:Hstrip; cbn [truthy negb].
  - split; [done | by intros [? _]].
  - set (cleaned := remove_char 46 (c :: tl)).
    pose proof (remove_char_nil 46%N (c :: tl)) as Hnil. fold cleaned in Hnil.
    destruct (existsb _ cleaned) eqn:Hbad.
    + split; [done |]. intros [_ Hall]. apply Hnil in Hall.
      rewrite Hall in Hbad. discriminate.
    + destruct cleaned as [| x [| y rest']] eqn:Hcleaned.
      * split; [intros _ | done]. split; [done | by apply Hnil].
      * split; [done |]. intros [_ Hall]. by apply Hnil in Hall.
      * split; [done |]. intros [_ Hall]. by apply Hnil in Hall.
Qed.

Section MatcherChecks.
Context `{Unicode}.

(** What the loop over the matches accepts has passed its checks. *)
Lemma first_accepted_checks candidates require_capitalized first :
  first_accepted candidates require_capitalized = Ret (Some first) ->
  truthy first = true /\
  (require_capitalized = true -> leading_isupper first = true) /\
  ~ lower_str first ∈ INVALID_FIRST_TOKENS /\
  exists candidate,
    In (Some candidate) candidates /\
    _clean_candidate candidate = Ret (Some first).
Proof.
  induction candidates as [| g later IH]; simpl; [done |].
  assert (Hskip :
            first_accepted later require_capitalized = Ret (Some first) ->
            truthy first = true /\
            (require_capitalized = true -> leading_isupper first = true) /\
            ~ lower_str first ∈ INVALID_FIRST_TOKENS /\
            exists candidate,
              (g = Some candidate \/ In (Some candidate) later) /\
              _clean_candidate candidate = Ret (Some first)).
  { intros Hlater. destruct (IH Hlater) as (Ht & Hup & Hblock & c & Hin & Hc).
    split_and!; [done | done | done |]. exists c. split; [by right | done]. }
  destruct g as [candidate |]; [| exact Hskip].
  destruct (truthy candidate); cbn [negb]; [| exact Hskip].
  destruct (_clean_candidate candidate) as [[cleaned |] | e] eqn:Hclean;
    [| exact Hskip | done].
  destruct (truthy cleaned) eqn:Htruthy; cbn [negb]; [| exact Hskip].
  destruct require_capitalized; cbn [andb].
  - destruct (leading_isupper cleaned) eqn:Hupper; cbn [negb];
      [| exact Hskip].
    destruct (bool_decide _) eqn:Hblock; [exact Hskip |].
    intros [= <-]. apply bool_decide_eq_false in Hblock.
    split_and!; [done | done | done |]. exists candidate. by split; [left |].
  - destruct (bool_decide _) eqn:Hblock; [exact Hskip |].
    intros [= <-]. apply bool_decide_eq_false in Hblock.
    split_and!; [done | done | done |]. exists candidate. by split; [left |].
Qed.

(** Where in the text the matcher looks. *)
Lemma finditer_from_suffix r prev text skip g :
  In g (finditer_from r prev text skip) ->
  exists cur stop a,
    match_at r cur = Some (g, stop) /\ text = a ++ rest cur.
Proof.
  revert prev skip. induction text as [| c tl IH]; intros prev skip.
  - destruct skip; simpl; [| done].
    destruct (match_at r (Cursor prev [])) as [[g0 stop] |] eqn:Hm; [| done].
    intros [<- | []]. by exists (Cursor prev []), stop, [].
  - assert (Hlater : forall prev' skip',
              In g (finditer_from r prev' tl skip') ->
              exists cur stop a,
                match_at r cur = Some (g, stop) /\ c :: tl = a ++ rest cur).
    { intros prev' skip' Hin.
      apply IH in Hin as (cur & stop & a & Hm & ->).
      by exists cur, stop, (c :: a). }
    destruct skip; simpl; [| apply Hlater].
    destruct (match_at r (Cursor prev (c :: tl))) as [[g0 stop] |] eqn:Hm;
      [| apply Hlater].
    intros [<- | Hin]; [| by eapply Hlater].
    by exists (Cursor prev (c :: tl)), stop, [].
Qed.

(** Group [first] of a match of the name pattern starts the match. *)
Lemma name_capture_prefix last_name cur s stop :
  match_at (_build_name_pattern last_name) cur = Some (Some s, stop) ->
  exists b, rest cur = s ++ b.
Proof.
  unfold match_at. intros Hm.
  apply rmatch_sound in Hm as (cur' & g' & Hreach & [= -> ->]).
  unfold _build_name_pattern in Hreach. cbv zeta in Hreach.
  set (tailr := Seq (Plus Space) _) in Hreach.
  assert (Hfree : group_free tailr = true).
  { subst tailr. cbn [group_free Plus Space]. rewrite group_free_LitI.
    rewrite group_free_UpTo; done. }
  cbn [reach] in Hreach.
  destruct Hreach as (cur1 & g1 & (_ & -> & ->) &
                      cur2 & g2 &
                      (cur3 & g3 & (g4 & Htoken & ->) & Hopt) & Htail).
  apply reach_group_free in Htail; [| done].
  apply reach_group_free in Hopt; [| done]. subst g2.
  injection Htail as ->.
  apply reach_rest in Htoken as (s' & Hrest).
  destruct cur as [b0 r0], cur3 as [b3 r3]. simpl in Hrest. subst r0.
  exists r3. by rewrite consumed_app.
Qed.

Lemma cleaned_from_occurs last_name text first :
  cleaned_from (finditer (_build_name_pattern last_name) text) first ->
  exists c tl a b, first = upper c ++ tl /\ text = a ++ (c :: tl) ++ b.
Proof.
  intros (c & tl & Hin & _ & _ & ->).
  apply finditer_from_suffix in Hin as (cur & stop & a & Hm & ->).
  apply name_capture_prefix in Hm as [b ->].
  by exists c, tl, a, b.
Qed.

(** A name from the matcher: the checks it passed, which pass made it,
    and where the last name and the capture are in the text. *)
Lemma _find_name_in_text_found text last_name first :
  _find_name_in_text text last_name = Ret (Some first) ->
  let normalized := _normalize_last_name last_name in
  truthy normalized = true /\
  str_in (lower_str normalized) (lower_str text) = true /\
  exists require_capitalized,
    _extract_from_pattern (_build_name_pattern normalized) text
      require_capitalized = Ret (Some first) /\
    (require_capitalized = false ->
     existsb (fun hint => str_in hint (lower_str text)) STRUCTURED_HINTS
     = true).
Proof.
  unfold _find_name_in_text.
  destruct (negb (truthy text) || negb (truthy last_name)); [done |].
  cbv zeta.
  destruct (truthy (_normalize_last_name last_name)); cbn [negb]; [| done].
  destruct (str_in _ _); cbn [negb]; [| done].
  destruct (_extract_from_pattern _ text true) as [o | e] eqn:Hstrict;
    [| done].
  destruct (truthy_opt o) eqn:Htruthy.
  - intros [= ->]. split_and!; [done | done |]. by exists true.
  - destruct (existsb _ STRUCTURED_HINTS) eqn:Hhint; [| done].
    intros Hrelaxed. split_and!; [done | done |]. by exists false.
Qed.
End MatcherChecks.

(** A name the matcher returns is not empty and its lower-case form is
    not one of the blocked honorifics and role words; without a
    structural hint in the text the name comes from the strict pass, and
    [isupper] holds of its first character. *)
Theorem matched_name_passes_the_checks `{Unicode}
    (text last_name first : str) :
  _find_name_in_text text last_name = Ret (Some first) ->
  truthy first = true /\
  ~ In (lower_str first) INVALID_FIRST_TOKENS /\
  (existsb (fun hint => str_in hint (lower_str text)) STRUCTURED_HINTS
   = false ->
   leading_isupper first = true).
Proof.
  intros Hfound.
  apply _find_name_in_text_found in Hfound
    as (_ & _ & require_capitalized & Hpass & Hrelaxed).
  apply first_accepted_checks in Hpass as (Ht & Hup & Hblock & _).
  split_and!; [done | |].
  - intros Hin. by apply Hblock, list_elem_of_In.
  - intros Hnohint. apply Hup.
    destruct require_capitalized; [done |].
    rewrite Hrelaxed in Hnohint; done.
Qed.

Lemma matched_name_passes_the_checks_witness :
  truthy (cp "Maria") = true /\
  ~ In (lower_str (cp "Maria")) INVALID_FIRST_TOKENS /\
  (existsb (fun hint => str_in hint (lower_str (cp "Maria Garcia-Lopez")))
     STRUCTURED_HINTS = false ->
   leading_isupper (cp "Maria") = true).
Proof.
  apply (matched_name_passes_the_checks (cp "Maria Garcia-Lopez")
           (cp "Garcia-Lopez") (cp "Maria")).
  vm_compute. reflexivity.
Defined.

(** A name the matcher returns was read off the text: the text holds the
    normalized last name, case aside, and holds the capture the name was
    cleaned from, the name being the capture with its first character in
    upper case. *)
Theorem matched_name_occurs_in_text `{Unicode}
    (text last_name first : str) :
  _find_name_in_text text last_name = Ret (Some first) ->
  (exists a b,
     lower_str text
     = a ++ lower_str (_normalize_last_name last_name) ++ b) /\
  exists c tl a b, first = upper c ++ tl /\ text = a ++ (c :: tl) ++ b.
Proof.
  intros Hfound.
  pose proof (_find_name_in_text_found text last_name first Hfound)
    as (_ & Hlast & _).
  split; [by apply str_in_spec |].
  destruct (_find_name_in_text_total text last_name) as (o & Hrun & Ho).
  rewrite Hrun in Hfound. injection Hfound as ->.
  destruct (Ho first eq_refl) as [_ Hclean].
  by eapply cleaned_from_occurs.
Qed.

Lemma matched_name_occurs_in_text_witness :
  (exists a b,
     lower_str (cp "Instructor: maria Garcia-Lopez")
     = a ++ lower_str (_normalize_last_name (cp "Garcia-Lopez (she/her)"))
         ++ b) /\
  exists c tl a b,
    cp "Maria" = upper c ++ tl /\
    cp "Instructor: maria Garcia-Lopez" = a ++ (c :: tl) ++ b.
Proof.
  apply (matched_name_occurs_in_text (cp "Instructor: maria Garcia-Lopez")
           (cp "Garcia-Lopez (she/her)") (cp "Maria")).
  vm_compute. reflexivity.
Defined.

Lemma trailing_parenthetical_needs_parenthesis `{Unicode} (cur : cursor) :
  Forall (fun d => d <> 40%N) (rest cur) ->
  match_at trailing_parenthetical cur = None.
Proof.
  intros Hnone. unfold match_at.
  destruct (rmatch trailing_parenthetical cur None _) as [res |] eqn:Hm;
    [| done].
  apply rmatch_sound in Hm as (cur' & g' & Hreach & _).
  unfold trailing_parenthetical in Hreach.
  set (tailr := Seq (Star (Chr _)) _) in Hreach. cbn [reach] in Hreach.
  destruct Hreach as (cur1 & g1 & Hspaces & cur2 & g2
                      & (c & tl & Hrest & Hc & _) & _).
  change (iter (reach Space) cur None cur1 g1)
    with (reach (Star Space) cur None cur1 g1) in Hspaces.
  apply reach_rest in Hspaces as [s Hs].
  apply N.eqb_eq in Hc as <-.
  rewrite Hs, Hrest in Hnone. apply Forall_app in Hnone as [_ Hnone].
  by inversion Hnone.
Qed.

(** A last name without an opening parenthesis is only stripped by
    normalization. *)
Theorem normalize_without_parenthesis_only_strips `{Unicode}
    (last_name : str) :
  Forall (fun d => d <> 40%N) last_name ->
  _normalize_last_name last_name = strip last_name.
Proof.
  intros Hnone. unfold _normalize_last_name, sub_empty.
  destruct (sub_empty_from_keep trailing_parenthetical last_name [] None)
    as [b' Hkeep].
  { intros b pre1 pre2 -> Hne. apply trailing_parenthetical_needs_parenthesis.
    simpl. rewrite app_nil_r. by apply Forall_app in Hnone as [_ ?]. }
  rewrite app_nil_r in Hkeep. rewrite Hkeep.
  by rewrite sub_empty_from_skip, app_nil_r by done.
Qed.

Lemma normalize_without_parenthesis_only_strips_witness :
  _normalize_last_name (cp "  van der Berg ") = strip (cp "  van der Berg ").
Proof.
  apply (normalize_without_parenthesis_only_strips (cp "  van der Berg ")).
  repeat (constructor; [discriminate |]). constructor.
Defined.

(** A parenthetical at the end of the last name is removed with the
    whitespace around it: a last name without an opening parenthesis,
    followed by whitespace, an opening parenthesis, any text without a
    closing parenthesis, a closing parenthesis and whitespace, normalizes
    to the stripped last name. *)
Theorem normalize_removes_trailing_parenthetical `{Unicode}
    (base ws1 q ws2 : str) :
  isspace 40 = false ->
  Forall (fun d => d <> 40%N) base ->
  Forall (fun d => isspace d = true) ws1 ->
  Forall (fun d => d <> 41%N) q ->
  Forall (fun d => isspace d = true) ws2 ->
  _normalize_last_name (base ++ ws1 ++ 40%N :: q ++ 41%N :: ws2)
  = strip base.
Proof. apply _normalize_last_name_strips_parenthetical. Qed.

Lemma normalize_removes_trailing_parenthetical_witness :
  _normalize_last_name
    (cp "O'Brien" ++ cp "  " ++ 40%N :: cp "(he/him" ++ 41%N :: cp " ")
  = strip (cp "O'Brien").
Proof.
  apply (normalize_removes_trailing_parenthetical
           (cp "O'Brien") (cp "  ") (cp "(he/him") (cp " ")).
  - reflexivity.
  - repeat (constructor; [discriminate |]). constructor.
  - repeat (constructor; [reflexivity |]). constructor.
  - repeat (constructor; [discriminate |]). constructor.
  - repeat (constructor; [reflexivity |]). constructor.
Defined.


(** A name extracted from a page was matched in one of the candidate
    chunks or in the fallback text, and that text holds the capture the
    name was cleaned from. *)
Theorem extracted_name_occurs_on_the_page `{Unicode}
    (BeautifulSoup : str -> soup) (html last_name first : str) :
  _extract_first_name BeautifulSoup html last_name = Ret (Some first) ->
  let doc := BeautifulSoup html in
  exists source c tl a b,
    (In source (_candidate_text_chunks doc) \/ source = fallback_text doc) /\
    _find_name_in_text source last_name = Ret (Some first) /\
    first = upper c ++ tl /\
    source = a ++ (c :: tl) ++ b.
Proof.
  intros Hfound doc.
  assert (exists source,
            (In source (_candidate_text_chunks doc)
             \/ source = fallback_text doc) /\
            _find_name_in_text source last_name = Ret (Some first))
    as (source & Hsource & Hmatch).
  { unfold _extract_first_name in Hfound.
    destruct (negb (truthy last_name)); [done |]. cbv zeta in Hfound.
    fold doc in Hfound.
    destruct (first_in_chunks _ last_name) as [[name |] | e] eqn:Hloop;
      [| | done].
    - injection Hfound as ->.
      apply first_in_chunks_from_chunk in Hloop as (chunk & Hin & Hchunk).
      exists chunk. split; [by left | done].
    - exists (fallback_text doc). split; [by right | done]. }
  destruct (_find_name_in_text_total source last_name) as (o & Hrun & Ho).
  pose proof Hmatch as Hmatch'.
  rewrite Hrun in Hmatch. injection Hmatch as ->.
  destruct (Ho first eq_refl) as [_ Hclean].
  apply cleaned_from_occurs in Hclean as (c & tl & a & b & Hfirst & Htext).
  by exists source, c, tl, a, b.
Qed.

Lemma extracted_name_occurs_on_the_page_witness :
  let doc := sample_page [] in
  exists source c tl a b,
    (In source (_candidate_text_chunks doc) \/ source = fallback_text doc) /\
    _find_name_in_text source (cp "Garcia-Lopez") = Ret (Some (cp "Maria")) /\
    cp "Maria" = upper c ++ tl /\
    source = a ++ (c :: tl) ++ b.
Proof.
  apply (extracted_name_occurs_on_the_page sample_page []
           (cp "Garcia-Lopez") (cp "Maria")).
  vm_compute. reflexivity.
Defined.

(* ===================================================================== *)
(** ** The batch: what [process_rows] does to the rows and the resolver *)
(* ===================================================================== *)

Section BatchFacts.
Context `{Unicode}.
Context (BeautifulSoup : str -> soup).
Context (net : str -> nat -> response).
Context (resolver0 : resolver).
Context (gender_detector : option (str -> str)).
Context (reuse_existing_first_names : bool).
Context (limit : option Z).

Abbreviation process_row' :=
  (process_row BeautifulSoup net resolver0 gender_detector
     reuse_existing_first_names limit).
Abbreviation process_loop' :=
  (process_loop BeautifulSoup net resolver0 gender_detector
     reuse_existing_first_names limit).

Definition teacher_of (r : row) : str :=
  strip (get_or_empty r (cp "course_teacher")).
Definition link_of (r : row) : str := strip (get_or_empty r (cp "link")).
Definition first_name_of (r : row) : str := strip (get_or_empty r new_column).
Definition sex_of (r : row) : str := strip (get_or_empty r sex_column).

(** Whether the row numbered [idx] makes the loop call [resolve]. *)
Definition needs_resolution (idx : nat) (r : row) : bool :=
  negb (beyond_limit limit idx) && truthy (teacher_of r) &&
  (negb (truthy (first_name_of r)) || negb reuse_existing_first_names).

(** The calls of [resolve] the loop makes, in order. *)
Fixpoint resolve_calls (idx : nat) (rows : list row) : list (str * str) :=
  match rows with
  | [] => []
  | r :: later =>
      (if needs_resolution idx r then [(link_of r, teacher_of r)] else [])
        ++ resolve_calls (S idx) later
  end.

(** The value written in the column of the sex. *)
Definition sex_written (first_name : str) (r : row) : str :=
  if truthy (sex_of r) then sex_of r
  else guess_sex first_name gender_detector.

Lemma get_or_empty_insert_ne (r : row) key key' value :
  key <> key' -> get_or_empty (<[key := value]> r) key' = get_or_empty r key'.
Proof. intros Hne. unfold get_or_empty. by rewrite lookup_insert_ne. Qed.

Lemma columns_differ : new_column <> sex_column.
Proof. discriminate. Qed.

Lemma process_row_beyond idx r b :
  beyond_limit limit idx = true ->
  process_row' idx r b
  = (Ret (<[new_column := default (Some []) (r !! new_column)]> r), b).
Proof. intros Hb. unfold process_row. by rewrite Hb. Qed.

Lemma process_row_no_teacher idx r b :
  beyond_limit limit idx = false ->
  truthy (teacher_of r) = false ->
  process_row' idx r b = (Ret r, log_row (WarnLacksTeacher idx) b).
Proof.
  intros Hb Ht. unfold process_row. rewrite Hb. cbv zeta.
  fold (teacher_of r). by rewrite Ht.
Qed.

(** A row within the limit that names a teacher: the first name is the
    one in the row when it is reused, and what [resolve] returns, [None]
    read as the empty string, otherwise. *)
Lemma process_row_processed idx r b :
  beyond_limit limit idx = false ->
  truthy (teacher_of r) = true ->
  exists first_name b',
    process_row' idx r b
    = (Ret (<[sex_column := Some (sex_written first_name r)]>
              (<[new_column := Some first_name]> r)), b') /\
    (if needs_resolution idx r
     then
       let call := resolve BeautifulSoup net resolver0 (link_of r)
                     (teacher_of r) (resolver_world b) in
       resolver_world b' = call.2 /\
       exists value, call.1 = Ret value /\ first_name = default [] value
     else
       resolver_world b' = resolver_world b /\
       first_name = first_name_of r /\ truthy first_name = true).
Proof.
  intros Hb Ht. unfold process_row, needs_resolution. rewrite Hb. cbv zeta.
  fold (teacher_of r) (link_of r) (first_name_of r). rewrite Ht.
  cbn [negb andb].
  assert (Hsex : forall first_name,
            strip (get_or_empty (<[new_column := Some first_name]> r)
                     sex_column) = sex_of r).
  { intros first_name. unfold sex_of.
    by rewrite get_or_empty_insert_ne by apply columns_differ. }
  assert (Hwritten : forall first_name,
            (if truthy (sex_of r)
             then <[sex_column := Some (sex_of r)]>
                    (<[new_column := Some first_name]> r)
             else <[sex_column := Some (guess_sex first_name gender_detector)]>
                    (<[new_column := Some first_name]> r))
            = <[sex_column := Some (sex_written first_name r)]>
                (<[new_column := Some first_name]> r)).
  { intros first_name. unfold sex_written. by destruct (truthy (sex_of r)). }
  destruct (negb (truthy (first_name_of r))
            || negb reuse_existing_first_names) eqn:Hneed.
  - destruct (resolve_then_cached BeautifulSoup net resolver0 (link_of r)
                (teacher_of r) (resolver_world b)) as (value & Hvalue & _).
    destruct (resolve BeautifulSoup net resolver0 (link_of r) (teacher_of r)
                (resolver_world b)) as [res w] eqn:Hcall.
    simpl in Hvalue. subst res.
    exists (default [] value). eexists. rewrite Hsex, Hwritten.
    split; [reflexivity |].
    destruct (idx mod 25 =? 0); simpl; (split; [done | by exists value]).
  - apply orb_false_iff in Hneed as [Hfirst _].
    apply negb_false_iff in Hfirst.
    exists (first_name_of r). eexists. rewrite Hsex, Hwritten.
    split; [reflexivity |]. by destruct (idx mod 25 =? 0).
Qed.

(** The loop never raises; it leaves as many rows as it found, each one
    as the body of the loop leaves it, and it drives the resolver by the
    calls of [resolve_calls]. *)
Lemma process_loop_run idx rows b :
  exists rows' b',
    process_loop' idx rows b = (Ret rows', b') /\
    length rows' = length rows /\
    resolver_world b'
    = resolve_all BeautifulSoup net resolver0 (resolve_calls idx rows)
        (resolver_world b) /\
    forall i r, rows !! i = Some r ->
      exists r' bi bi',
        rows' !! i = Some r' /\ process_row' (idx + i) r bi = (Ret r', bi') /\
        resolver_world bi
        = resolve_all BeautifulSoup net resolver0
            (resolve_calls idx (take i rows)) (resolver_world b).
Proof.
  revert idx b. induction rows as [| r later IH]; intros idx b.
  - exists [], b. split_and!; [done | done | done |]. intros i r [=].
  - assert (exists r1 b1,
              process_row' idx r b = (Ret r1, b1) /\
              resolver_world b1
              = resolve_all BeautifulSoup net resolver0
                  (if needs_resolution idx r
                   then [(link_of r, teacher_of r)] else [])
                  (resolver_world b)) as (r1 & b1 & Hrow & Hworld).
    { destruct (beyond_limit limit idx) eqn:Hb.
      - rewrite process_row_beyond by done. eexists _, b.
        split; [done |]. unfold needs_resolution. by rewrite Hb.
      - destruct (truthy (teacher_of r)) eqn:Ht.
        + destruct (process_row_processed idx r b Hb Ht)
            as (first_name & b1 & Hrow & Hcase).
          eexists _, b1. split; [exact Hrow |].
          destruct (needs_resolution idx r).
          * by destruct Hcase as [-> _].
          * by destruct Hcase as [-> _].
        + rewrite process_row_no_teacher by done. eexists _, _.
          split; [done |]. unfold needs_resolution. rewrite Hb, Ht.
          by rewrite andb_false_r. }
    destruct (IH (S idx) b1) as (later' & b2 & Hloop & Hlen & Hcalls & Hrows).
    exists (r1 :: later'), b2. cbn [process_loop]. rewrite Hrow, Hloop.
    split_and!; [done | by simpl; rewrite Hlen | |].
    + cbn [resolve_calls]. rewrite Hcalls, Hworld.
      by destruct (needs_resolution idx r).
    + intros [| i] r0 Hr0.
      * injection Hr0 as <-. exists r1, b, b1. by rewrite Nat.add_0_r.
      * destruct (Hrows i r0 Hr0) as (r' & bi & bi' & Hr' & Hbody & Hbi).
        exists r', bi, bi'. split_and!; [done | |].
        -- by replace (idx + S i) with (S idx + i) by lia.
        -- cbn [take resolve_calls]. rewrite Hbi, Hworld.
           by destruct (needs_resolution idx r).
Qed.


Lemma resolve_calls_nil idx rows :
  (forall i r, rows !! i = Some r -> needs_resolution (idx + i) r = false) ->
  resolve_calls idx rows = [].
Proof.
  revert idx. induction rows as [| r later IH]; intros idx Hrows; [done |].
  cbn [resolve_calls]. pose proof (Hrows 0 r eq_refl) as Hr.
  rewrite Nat.add_0_r in Hr. rewrite Hr. simpl. apply IH.
  intros i r0 Hr0. replace (S idx + i) with (idx + S i) by lia.
  by apply Hrows.
Qed.






Definition header_of (fieldnames : option (list str)) : list str :=
  add_column (add_column (default [] fieldnames) new_column) sex_column.

(** The function never raises; it returns the header with the two columns
    and the number of rows, and the loop is the one of [process_loop_run]. *)
Lemma process_rows_run fieldnames rows b :
  exists rows' b',
    process_rows BeautifulSoup net resolver0 gender_detector
      reuse_existing_first_names limit fieldnames rows b
    = (Ret (header_of fieldnames, rows', length rows), b') /\
    length rows' = length rows /\
    resolver_world b'
    = resolve_all BeautifulSoup net resolver0 (resolve_calls 1 rows)
        (resolver_world b) /\
    forall i r, rows !! i = Some r ->
      exists r' bi bi',
        rows' !! i = Some r' /\ process_row' (S i) r bi = (Ret r', bi') /\
        resolver_world bi
        = resolve_all BeautifulSoup net resolver0
            (resolve_calls 1 (take i rows)) (resolver_world b).
Proof.
  destruct (process_loop_run 1 rows b)
    as (rows' & b' & Hloop & Hlen & Hworld & Hrows).
  exists rows', b'. unfold process_rows, header_of. rewrite Hloop, Hlen.
  done.
Qed.
End BatchFacts.









(** The label of [guess_sex] is one of the empty string, male, female and
    unknown; it is empty exactly when there is no first name or no
    detector. *)
Theorem guess_sex_labels (first_name : str) (detector : option (str -> str)) :
  guess_sex first_name detector
    ∈ [[]; cp "male"; cp "female"; cp "unknown"] /\
  (guess_sex first_name detector = [] <->
   first_name = [] \/ detector = None).
Proof.
  unfold guess_sex. destruct first_name as [| c tl]; cbn [truthy negb].
  - split; [apply list_elem_of_here | split; [by left | done]].
  - destruct detector as [get_gender |].
    + cbv zeta.
      repeat case_bool_decide;
        (split;
         [apply list_elem_of_In; simpl; tauto
         | split; [discriminate | by intros [[=] | [=]]]]).
    + split; [apply list_elem_of_here | split; [by right | done]].
Qed.

(** With reuse on, a table whose rows within the limit all have a first
    name, or no teacher, is processed without the resolver: no request is
    sent, nothing is cached and nothing is logged by it. *)
Theorem rows_with_first_names_cost_no_request `{Unicode}
    (BeautifulSoup : str -> soup) (net : str -> nat -> response)
    (resolver0 : resolver) (gender_detector : option (str -> str))
    (limit : option Z)
    (fieldnames : option (list str)) (rows : list row) (b : batch) :
  (forall i r, rows !! i = Some r ->
     beyond_limit limit (S i) = false -> truthy (teacher_of r) = true ->
     truthy (first_name_of r) = true) ->
  exists header rows' b',
    process_rows BeautifulSoup net resolver0 gender_detector true limit
      fieldnames rows b
    = (Ret (header, rows', length rows), b') /\
    resolver_world b' = resolver_world b.
Proof.
  intros Hrows.
  destruct (process_rows_run BeautifulSoup net resolver0 gender_detector
              true limit fieldnames rows b)
    as (rows' & b' & Hrun & _ & Hworld & _).
  exists (header_of fieldnames), rows', b'. split; [done |].
  rewrite Hworld, resolve_calls_nil; [done |].
  intros i r Hr. unfold needs_resolution. cbn [Nat.add].
  destruct (beyond_limit limit (S i)) eqn:Hb; [done |].
  destruct (truthy (teacher_of r)) eqn:Ht; [| done].
  by rewrite (Hrows i r Hr Hb Ht).
Qed.




(** A small table: a row to resolve, a row with a blank teacher and a row
    that has a first name and an empty sex. *)
Definition sample_rows : list row :=
  [ {[ cp "course_teacher" := Some (cp "Garcia-Lopez");
       cp "link" := Some (cp " https://q/1 ") ]};
    {[ cp "course_teacher" := Some (cp "  ");
       cp "link" := Some (cp "https://q/2") ]};
    {[ cp "course_teacher" := Some (cp "Smith");
       new_column := Some (cp " Ann ");
       sex_column := None ]} ].

Definition sample_net (url : str) (attempt : nat) : response :=
  Response 200 (cp "<html>").

Definition fresh_batch : batch := Batch fresh_world [].



Lemma rows_with_first_names_cost_no_request_witness :
  exists header rows' b',
    process_rows sample_page sample_net (new_resolver (Some (cp "k=v")) 0 3)
      None true None None (drop 1 sample_rows) fresh_batch
    = (Ret (header, rows', 2), b') /\
    resolver_world b' = fresh_world.
Proof.
  apply (rows_with_first_names_cost_no_request sample_page sample_net
           (new_resolver (Some (cp "k=v")) 0 3) None None None
           (drop 1 sample_rows) fresh_batch).
  intros [| [| i]] r [= <-] _ Hteacher.
  - vm_compute in Hteacher. discriminate Hteacher.
  - vm_compute. reflexivity.
Defined.

